(** * Voice-notes plugin: the file-processing pipeline

    A shallow embedding of [main.ts] and of the two revisions of
    [processor.ts] (the one that ships beside [main.ts], and the older one
    kept under [src/]), followed by the properties of the candidate filter,
    the pipeline, the note renderer and the ingestion queue.

    JavaScript strings are modelled by [string]; every character stands for
    one code unit, and the model covers code units below 256.  Host calls
    (vault, OpenAI client, [Math.random]) are the constructors of [call];
    an asynchronous function is a term of the free monad [js] over them. *)

From stdpp Require Import base strings gmap list.
From Stdlib Require Import Ascii String ZArith Lia DecimalString.

Open Scope string_scope.

(* ================================================================== *)
(** ** JavaScript string built-ins used by the plugin                  *)
(* ================================================================== *)

Module JsString.

Definition LF : ascii := ascii_of_nat 10.
Definition DQUOTE : ascii := ascii_of_nat 34.
Definition BACKSLASH : ascii := ascii_of_nat 92.

(** The one-character strings that a template literal spells as a line
    break and as a double quote. *)
Definition nl : string := String LF "".
Definition dq : string := String DQUOTE "".

(** [s.includes(sub)]: [sub] occurs in [s] at some offset. *)
Fixpoint includes (s sub : string) : bool :=
  String.prefix sub s ||
  match s with
  | "" => false
  | String _ s' => includes s' sub
  end.

(** [s.split(sep)] for a one-character separator. *)
Fixpoint split (sep : ascii) (s : string) : list string :=
  match s with
  | "" => [""]
  | String c s' =>
      if Ascii.eqb c sep then "" :: split sep s'
      else match split sep s' with
           | [] => [String c ""]
           | l :: ls => String c l :: ls
           end
  end.

(** [a.slice(1)]. *)
Definition slice1 {A} (a : list A) : list A := drop 1 a.

(** [a.join(sep)]. *)
Definition join (sep : string) (a : list string) : string := String.concat sep a.

(** [a[0]] on an array of strings; [split] never returns an empty array. *)
Definition first (a : list string) : string := hd "" a.

(** WhiteSpace and LineTerminator code units below 256: TAB, LF, VT, FF, CR,
    SP and NBSP. *)
Definition is_white_space (c : ascii) : bool :=
  let n := nat_of_ascii c in
  bool_decide (n ∈ [9; 10; 11; 12; 13; 32; 160]%nat).

Fixpoint trim_start (s : string) : string :=
  match s with
  | "" => ""
  | String c s' => if is_white_space c then trim_start s' else s
  end.

Fixpoint trim_end (s : string) : string :=
  match s with
  | "" => ""
  | String c s' =>
      match trim_end s' with
      | "" => if is_white_space c then "" else String c ""
      | t => String c t
      end
  end.

(** [s.trim()]. *)
Definition trim (s : string) : string := trim_end (trim_start s).

(** [!s] for a value that is a string, [null] or [undefined]. *)
Definition falsy (s : option string) : bool :=
  match s with
  | None => true
  | Some "" => true
  | Some _ => false
  end.

(** Interpolation [`${n}`] of a non-negative integer. *)
Definition of_number (n : N) : string := NilZero.string_of_uint (N.to_uint n).

End JsString.

Import JsString.

(* ================================================================== *)
(** ** Host data: files and folders of the vault                       *)
(* ================================================================== *)

Record FileStats := { mtime : Z }.

Record TFile := {
  path : string;
  name : string;
  extension : string;
  stat : FileStats
}.

Record TFolder := { folder_path : string }.

(** A [TAbstractFile] is a [TFile] or a [TFolder]; [instanceof TFile]
    tells them apart. *)
Inductive TAbstractFile :=
| AFile (f : TFile)
| AFolder (d : TFolder).

Definition abstract_path (a : TAbstractFile) : string :=
  match a with
  | AFile f => path f
  | AFolder d => folder_path d
  end.

Definition instanceof_TFile (a : TAbstractFile) : bool :=
  match a with
  | AFile _ => true
  | AFolder _ => false
  end.

(* ================================================================== *)
(** ** main.ts: settings and the candidate filter                      *)
(* ================================================================== *)

Record VoiceNotesSettings := {
  openAIAPIKey : string;
  watchDirectory : string;
  processedDirectory : string;
  outputDirectory : string
}.

Definition DEFAULT_SETTINGS : VoiceNotesSettings := {|
  openAIAPIKey := "";
  watchDirectory := "voice-notes";
  processedDirectory := "voice-notes-processed";
  outputDirectory := "voice-notes-output"
|}.

Definition isAudioFile (file : TFile) : bool :=
  String.eqb (extension file) "mp3" || String.eqb (extension file) "m4a".

Definition shouldProcessFile (settings : VoiceNotesSettings) (file : TAbstractFile) : bool :=
  includes (abstract_path file) (watchDirectory settings)
  && instanceof_TFile file
  && match file with
     | AFile f => isAudioFile f
     | AFolder _ => false
     end.

(** [queueUnprocessedFiles]: the files of [vault.getFiles()], in order, for
    which [queueFile] is called. *)
Definition queueUnprocessedFiles (settings : VoiceNotesSettings) (files : list TFile) : list TFile :=
  filter (fun file => shouldProcessFile settings (AFile file) = true) files.

(** [queueFromWatcher], the handler of the vault's [create] and [rename]
    events: the files for which [queueFile] is called (none or one). *)
Definition queueFromWatcher (settings : VoiceNotesSettings) (file : TAbstractFile) : list TFile :=
  if shouldProcessFile settings file
  then match file with
       | AFile f => [f]
       | AFolder _ => []
       end
  else [].

(* ================================================================== *)
(** ** Host calls and the monad of asynchronous functions              *)
(* ================================================================== *)

(** Values thrown or rejected. *)
Inductive exn :=
| Error (message : string)
| TypeError (message : string).

Definition bytes := list Byte.byte.

(** [new File([blob], name, { type })]. *)
Record AudioFile := {
  file_name : string;
  file_type : string;
  file_data : bytes
}.

Record TranscriptionRequest := {
  tr_file : AudioFile;
  tr_model : string
}.

(** The fields of the responses that the plugin reads.  [text] and
    [content] may be absent. *)
Record TranscriptionResponse := { text : option string }.

Record ChatMessage := { role : string; msg_content : string }.

Record ChatRequest := {
  chat_model : string;
  messages : list ChatMessage
}.

Record ChatChoice := { message_content : option string }.

Record ChatResponse := { choices : list ChatChoice }.

(** The asynchronous operations of the host that a run awaits.  Each is
    indexed by the type of what it resolves to; it may also reject. *)
Inductive call : Type -> Type :=
| ReadBinary (file : TFile) : call bytes
| TranscriptionsCreate (req : TranscriptionRequest) : call TranscriptionResponse
| ChatCompletionsCreate (req : ChatRequest) : call ChatResponse
| VaultCreate (p : string) (data : string) : call TFile
| VaultCreateFolder (p : string) : call TFolder
| VaultRename (file : TAbstractFile) (newPath : string) : call unit.

(** The synchronous lookups, which return at once and never throw: the two
    lookups of the vault's file table, and
    [Math.floor(Math.random() * 1000)], taken as one draw. *)
Inductive query : Type -> Type :=
| GetAbstractFileByPath (p : string) : query (option TAbstractFile)
| GetFolderByPath (p : string) : query (option TFolder)
| FloorRandom1000 : query N.

(** What a run shows without waiting for an answer. *)
Inductive output :=
| Notice (message : string)
| ConsoleLog (message : string)
| ConsoleError (error : exn).

Inductive js (R : Type) : Type :=
| Ret (r : R)
| Throw (e : exn)
| Call {X : Type} (c : call X) (k : exn + X -> js R)
| Ask {X : Type} (q : query X) (k : X -> js R)
| Emit (o : output) (k : js R).

Arguments Ret {R} r.
Arguments Throw {R} e.
Arguments Call {R X} c k.
Arguments Ask {R X} q k.
Arguments Emit {R} o k.

Fixpoint bind {A B} (p : js A) (f : A -> js B) : js B :=
  match p with
  | Ret r => f r
  | Throw e => Throw e
  | Call c k => Call c (fun r => bind (k r) f)
  | Ask q k => Ask q (fun x => bind (k x) f)
  | Emit o k => Emit o (bind k f)
  end.

(** [try { p } catch (error) { h error }]. *)
Fixpoint try_catch {A} (p : js A) (h : exn -> js A) : js A :=
  match p with
  | Ret r => Ret r
  | Throw e => h e
  | Call c k => Call c (fun r => try_catch (k r) h)
  | Ask q k => Ask q (fun x => try_catch (k x) h)
  | Emit o k => Emit o (try_catch k h)
  end.

(** [await c]: a rejection is rethrown at the call site. *)
Definition await {X} (c : call X) : js X :=
  Call c (fun r => match r with
                   | inl e => Throw e
                   | inr x => Ret x
                   end).

Definition ask {X} (q : query X) : js X := Ask q Ret.

Definition emit (o : output) : js unit := Emit o (Ret tt).

#[global] Instance js_ret : MRet js := @Ret.
#[global] Instance js_bind : MBind js := fun A B f p => bind p f.

(** One entry of the log of a run: a call with its outcome, a lookup with
    its answer, or an output. *)
Inductive entry :=
| Called {X : Type} (c : call X) (r : exn + X)
| Asked {X : Type} (q : query X) (x : X)
| Emitted (o : output).

(** A host: from its state [W] it settles every call, by a value or by an
    exception, answers every lookup, and moves to a new state. *)
Record host (W : Type) := {
  settle : forall X, call X -> W -> (exn + X) * W;
  answer : forall X, query X -> W -> X * W
}.

Arguments settle {W} _ {X} _ _.
Arguments answer {W} _ {X} _ _.

Fixpoint run {W R} (h : host W) (p : js R) (w : W) : list entry * (exn + R) * W :=
  match p with
  | Ret r => ([], inr r, w)
  | Throw e => ([], inl e, w)
  | Call c k =>
      let '(r, w1) := settle h c w in
      let '(t, res, w2) := run h (k r) w1 in
      (Called c r :: t, res, w2)
  | Ask q k =>
      let '(x, w1) := answer h q w in
      let '(t, res, w2) := run h (k x) w1 in
      (Asked q x :: t, res, w2)
  | Emit o k =>
      let '(t, res, w2) := run h k w in
      (Emitted o :: t, res, w2)
  end.

Definition trace_of {W R} (x : list entry * (exn + R) * W) : list entry := x.1.1.
Definition result_of {W R} (x : list entry * (exn + R) * W) : exn + R := x.1.2.
Definition world_of {W R} (x : list entry * (exn + R) * W) : W := x.2.

(* ================================================================== *)
(** ** moment: the formatter of modification times                     *)
(* ================================================================== *)

(** [moment(t).format(pattern)] and [moment(t).toISOString(keepOffset)];
    both depend on the local time zone of the host. *)
Class Moment := {
  moment_format : Z -> string -> string;
  moment_toISOString : Z -> bool -> string
}.

(* ================================================================== *)
(** ** processor.ts, the revision that ships beside main.ts            *)
(* ================================================================== *)

Module Processor.
Section WithSettings.
Context `{Moment} (settings : VoiceNotesSettings).

Definition transcribeAudio (file : TFile) : js string :=
  audioData ← await (ReadBinary file);
  let audioFile := {| file_name := "audio." ++ extension file;
                      file_type := "audio/" ++ extension file;
                      file_data := audioData |} in
  response ← await (TranscriptionsCreate {| tr_file := audioFile; tr_model := "whisper-1" |});
  if falsy (text response)
  then Throw (Error "No transcription text received from OpenAI")
  else Ret (default "" (text response)).

Definition system_prompt : string :=
  "You are a helpful assistant that summarizes voice notes. " ++ nl ++
  "You are writing in the original language of the voice note (either German or English)." ++ nl ++
  "You are writing as if you were the author of the voice note." ++ nl ++
  "You are writing in the first person.".

Definition user_prompt (transcript : string) : string :=
  "Please summarize this transcript." ++ nl ++
  "Start with a specific summary of key points (up to 300 characters) followed by a bullet list of the content." ++ nl ++
  nl ++
  transcript.

(** [response.choices[0].message.content]: reading [message] of a missing
    first choice raises a [TypeError]. *)
Definition first_choice_content (response : ChatResponse) : js (option string) :=
  match choices response with
  | [] => Throw (TypeError "Cannot read properties of undefined (reading 'message')")
  | c :: _ => Ret (message_content c)
  end.

Definition enhanceTranscript (transcript : string) : js (string * string) :=
  response ← await (ChatCompletionsCreate
    {| chat_model := "gpt-4o";
       messages := [ {| role := "system"; msg_content := system_prompt |};
                     {| role := "user"; msg_content := user_prompt transcript |} ] |});
  content ← first_choice_content response;
  if falsy content
  then Throw (Error "No transcription text received from OpenAI")
  else
    let contentLines := split LF (default "" content) in
    Ret (first contentLines, trim (join nl (slice1 contentLines))).

(** The record argument of [formatToMarkdown]. *)
Record MarkdownArgs := {
  content : string;
  transcript : string;
  audioFileName : string;
  summary : string;
  file : TFile
}.

(** The template literal, line by line; the constants [date] and [time]
    of the source are not used by it. *)
Definition formatToMarkdown (a : MarkdownArgs) : string :=
  "---" ++ nl ++
  "source: " ++ dq ++ "[[" ++ audioFileName a ++ "]]" ++ dq ++ nl ++
  "summary: " ++ dq ++ summary a ++ dq ++ nl ++
  "timestamp: " ++ dq ++ moment_toISOString (mtime (stat (file a))) true ++ dq ++ nl ++
  "tags: " ++ nl ++
  "  - fromvoicenote" ++ nl ++
  "---" ++ nl ++
  content a ++ nl ++
  nl ++
  "## Original transcript" ++ nl ++
  nl ++
  transcript a.

Definition baseFileName (file : TFile) : string :=
  moment_format (mtime (stat file)) "YYYY-MM-DD" ++ " at " ++
  moment_format (mtime (stat file)) "HH.mm".

Definition processAudioFile (file : TFile) : js unit :=
  let audioFileName := baseFileName file ++ "." ++ extension file in
  let processedDir := processedDirectory settings in
  (* 1. Transcribe the audio *)
  transcript ← transcribeAudio file;
  (* 2. Process with GPT-4o *)
  '(summary, content) ← enhanceTranscript transcript;
  (* 3. Create markdown file with file's modification time *)
  let markdownContent := formatToMarkdown
    {| summary := summary; transcript := transcript; content := content;
       audioFileName := audioFileName; file := file |} in
  let outputPath := outputDirectory settings ++ "/" ++ baseFileName file ++ ".md" in
  existing ← ask (GetAbstractFileByPath outputPath);
  outputPath ← (if existing is None then Ret outputPath
                else n ← ask FloorRandom1000;
                     Ret (outputDirectory settings ++ "/" ++ baseFileName file ++ "_" ++ of_number n ++ ".md"));
  _ ← await (VaultCreate outputPath markdownContent);
  (* 4. Move original file to processed directory *)
  let targetLocation := processedDir ++ "/" ++ audioFileName in
  existing ← ask (GetAbstractFileByPath targetLocation);
  targetLocation ← (if existing is None then Ret targetLocation
                    else n ← ask FloorRandom1000;
                         let randomSuffix := "_" ++ of_number n in
                         Ret (processedDirectory settings ++ "/" ++ baseFileName file ++ randomSuffix ++ "." ++ extension file));
  emit (ConsoleLog ("Renaming " ++ name file ++ " to: " ++ targetLocation));;
  await (VaultRename (AFile file) targetLocation).

(** The function that [queueFile] hands to [queue.add]. *)
Definition queueTask (file : TFile) : js unit :=
  try_catch
    (emit (Notice ("Processing audio file: " ++ path file));;
     processAudioFile file;;
     emit (Notice ("Transcribed: " ++ path file)))
    (fun error =>
       emit (Notice ("Failed to process: " ++ path file));;
       emit (ConsoleError error)).

End WithSettings.
End Processor.

(* ================================================================== *)
(** ** src/processor.ts, the older revision                            *)
(* ================================================================== *)

Module LegacyProcessor.
Section WithSettings.
Context `{Moment} (settings : VoiceNotesSettings).

Definition transcribeAudio (file : TFile) : js string :=
  audioData ← await (ReadBinary file);
  let audioFile := {| file_name := "audio." ++ extension file;
                      file_type := "audio/" ++ extension file;
                      file_data := audioData |} in
  response ← await (TranscriptionsCreate {| tr_file := audioFile; tr_model := "whisper-1" |});
  if falsy (text response)
  then Throw (Error "No transcription text received from OpenAI")
  else Ret (default "" (text response)).

Definition user_prompt (transcript : string) : string :=
  "I recorded this voice note recently. Please summarize it in the original language and from my perspective." ++ nl ++
  "Start the summary with a short one-liner. Shorter is better." ++ nl ++
  "Use a bullet list format, combining related items into single bullets as appropriate" ++ nl ++
  nl ++
  transcript.

Definition enhanceTranscript (transcript : string) : js (string * string) :=
  response ← await (ChatCompletionsCreate
    {| chat_model := "gpt-4";
       messages := [ {| role := "user"; msg_content := user_prompt transcript |} ] |});
  content ← Processor.first_choice_content response;
  if falsy content
  then Throw (Error "No transcription text received from OpenAI")
  else
    let contentLines := split LF (default "" content) in
    Ret (first contentLines, join nl (slice1 contentLines)).

Record MarkdownArgs := {
  content : string;
  audioFileName : string;
  summary : string;
  file : TFile
}.

Definition formatToMarkdown (a : MarkdownArgs) : string :=
  "---" ++ nl ++
  "source: " ++ dq ++ "[[" ++ audioFileName a ++ "]]" ++ dq ++ nl ++
  "summary: " ++ dq ++ summary a ++ dq ++ nl ++
  "date: " ++ dq ++ moment_toISOString (mtime (stat (file a))) true ++ dq ++ nl ++
  "tags: " ++ nl ++
  "  - fromvoicenote" ++ nl ++
  "---" ++ nl ++
  content a.

Definition processAudioFile (file : TFile) : js unit :=
  let baseFileName := Processor.baseFileName file in
  let audioFileName := baseFileName ++ "." ++ extension file in
  (* 1. Transcribe the audio *)
  transcript ← transcribeAudio file;
  (* 2. Process with GPT-4 *)
  '(summary, content) ← enhanceTranscript transcript;
  (* 3. Create markdown file with file's modification time *)
  let markdownContent := formatToMarkdown
    {| summary := summary; content := content;
       audioFileName := audioFileName; file := file |} in
  let outputPath := outputDirectory settings ++ "/" ++ baseFileName ++ ".md" in
  _ ← await (VaultCreate outputPath markdownContent);
  (* 4. Move original file to processed directory *)
  let processedDir := processedDirectory settings in
  folder ← ask (GetFolderByPath processedDir);
  (if folder is None then _ ← await (VaultCreateFolder processedDir); Ret tt else Ret tt);;
  let targetLocation := processedDir ++ "/" ++ audioFileName in
  emit (ConsoleLog ("Renaming [object Object] to: " ++ targetLocation));;
  await (VaultRename (AFile file) targetLocation).

(** [queueFile] shows its first notice at once, outside the queued task. *)
Definition queueNotice (file : TFile) : output :=
  Notice ("Processing audio file: " ++ path file).

Definition queueTask (file : TFile) : js unit :=
  try_catch
    (processAudioFile file;;
     emit (Notice ("Transcribed: " ++ path file)))
    (fun error =>
       emit (Notice ("Failed to process: " ++ path file));;
       emit (ConsoleError error)).

End WithSettings.
End LegacyProcessor.

(* ================================================================== *)
(** ** main.ts: what runs once the layout is ready                     *)
(* ================================================================== *)

(** The folder checks of the [onLayoutReady] callback of [onload], which
    run before the startup scan and before the watchers are registered. *)
Definition ensureFolder (dir : string) : js unit :=
  folder ← ask (GetFolderByPath dir);
  if folder is None then _ ← await (VaultCreateFolder dir); Ret tt else Ret tt.

Definition onLayoutReady_folders (settings : VoiceNotesSettings) : js unit :=
  emit (ConsoleLog "ObsidianVoiceNotesPlugin: onload");;
  ensureFolder (processedDirectory settings);;
  ensureFolder (outputDirectory settings).

(* ================================================================== *)
(** ** Observations on the log of a run                                *)
(* ================================================================== *)

Definition succeeded {X} (r : exn + X) : bool :=
  match r with
  | inl _ => false
  | inr _ => true
  end.

(** [vault.create] calls: path, data, and whether the note was written. *)
Definition create_of (e : entry) : option (string * string * bool) :=
  match e with
  | Called c r =>
      match c with
      | VaultCreate p data => Some (p, data, succeeded r)
      | _ => None
      end
  | _ => None
  end.

(** [vault.rename] calls: the file, the target, and whether it moved. *)
Definition rename_of (e : entry) : option (TAbstractFile * string * bool) :=
  match e with
  | Called c r =>
      match c with
      | VaultRename file newPath => Some (file, newPath, succeeded r)
      | _ => None
      end
  | _ => None
  end.

(** [vault.getFolderByPath] and [vault.createFolder] calls, by path. *)
Definition folder_call_of (e : entry) : option string :=
  match e with
  | Called c _ =>
      match c with
      | VaultCreateFolder p => Some p
      | _ => None
      end
  | Asked q _ =>
      match q with
      | GetFolderByPath p => Some p
      | _ => None
      end
  | _ => None
  end.

(** [vault.getAbstractFileByPath] calls: the path, and whether something
    was found there. *)
Definition exists_check_of (e : entry) : option (string * bool) :=
  match e with
  | Asked q x =>
      match q in query X return X -> option (string * bool) with
      | GetAbstractFileByPath p => fun x => Some (p, if x is Some _ then true else false)
      | _ => fun _ => None
      end x
  | _ => None
  end.

(** The draws of [Math.floor(Math.random() * 1000)]. *)
Definition draw_of (e : entry) : option N :=
  match e with
  | Asked q x =>
      match q in query X return X -> option N with
      | FloorRandom1000 => fun x => Some x
      | _ => fun _ => None
      end x
  | _ => None
  end.

Definition notice_of (e : entry) : option string :=
  match e with
  | Emitted (Notice m) => Some m
  | _ => None
  end.

(** The entry is a call that changed the vault: a [create], [createFolder]
    or [rename] that succeeded. *)
Definition is_write (e : entry) : bool :=
  match e with
  | Called c r =>
      match c with
      | VaultCreate _ _ | VaultCreateFolder _ | VaultRename _ _ => succeeded r
      | _ => false
      end
  | _ => false
  end.

Definition creates (t : list entry) := omap create_of t.
Definition renames (t : list entry) := omap rename_of t.
Definition folder_calls (t : list entry) := omap folder_call_of t.
Definition exists_checks (t : list entry) := omap exists_check_of t.
Definition draws (t : list entry) := omap draw_of t.
Definition notices (t : list entry) := omap notice_of t.

(** The notes written during a run: the [vault.create] calls that
    succeeded. *)
Definition notes_written (t : list entry) : list (string * string) :=
  omap (fun c : string * string * bool => if c.2 then Some c.1 else None) (creates t).

(** The transcription answer of a run, when the call was reached. *)
Definition transcription_of (e : entry) : option (exn + TranscriptionResponse) :=
  match e with
  | Called c r =>
      match c in call X return exn + X -> option (exn + TranscriptionResponse) with
      | TranscriptionsCreate _ => fun r => Some r
      | _ => fun _ => None
      end r
  | _ => None
  end.

Definition summarization_of (e : entry) : option (exn + ChatResponse) :=
  match e with
  | Called c r =>
      match c in call X return exn + X -> option (exn + ChatResponse) with
      | ChatCompletionsCreate _ => fun r => Some r
      | _ => fun _ => None
      end r
  | _ => None
  end.

(** The remote call raised an error, or returned empty or absent text. *)
Definition transcription_unusable (r : exn + TranscriptionResponse) : bool :=
  match r with
  | inl _ => true
  | inr response => falsy (text response)
  end.

(** The content of a chat response: none when there is no first choice. *)
Definition response_content (response : ChatResponse) : option string :=
  match choices response with
  | [] => None
  | c :: _ => message_content c
  end.

Definition summarization_unusable (r : exn + ChatResponse) : bool :=
  match r with
  | inl _ => true
  | inr response => falsy (response_content response)
  end.

Definition transcription_failed (t : list entry) : Prop :=
  exists r, r ∈ omap transcription_of t /\ transcription_unusable r = true.

Definition summarization_failed (t : list entry) : Prop :=
  exists r, r ∈ omap summarization_of t /\ summarization_unusable r = true.

(* ================================================================== *)
(** ** A reference host: an in-memory vault and scripted remotes       *)
(* ================================================================== *)

Module Vault.

(** Modelled from the spec: the storage boundary of section 6
    ([pathExists], [createFolder], [readBytes], [writeFile], [move]); the
    host application is not part of the repository.  [writeFile] fails on
    an occupied path, [createFolder] is idempotent, and a file can only be
    written or moved into a folder that exists. *)
Inductive node :=
| NFile (modified : Z) (data : bytes)
| NFolder.

(** Modelled from the spec: the remote-capability boundary of section 6,
    [transcribe(bytes, mediaType) -> text | error] and
    [generateText(prompt) -> text | error], as scripts of answers that are
    consumed in order, with the draws of the random suffix. *)
Record world := {
  files : gmap string node;
  clock : Z;
  whisper : list (exn + TranscriptionResponse);
  gpt : list (exn + ChatResponse);
  dice : list N
}.

(** The part of [s] before and after the last occurrence of [c]. *)
Fixpoint rsplit (c : ascii) (s : string) : option (string * string) :=
  match s with
  | "" => None
  | String a s' =>
      match rsplit c s' with
      | Some (l, r) => Some (String a l, r)
      | None => if Ascii.eqb a c then Some ("", s') else None
      end
  end.

Definition SLASH : ascii := ascii_of_nat 47.
Definition DOT : ascii := ascii_of_nat 46.

Definition dirname (p : string) : string :=
  match rsplit SLASH p with
  | Some (d, _) => d
  | None => ""
  end.

Definition basename (p : string) : string :=
  match rsplit SLASH p with
  | Some (_, b) => b
  | None => p
  end.

Definition extname (p : string) : string :=
  match rsplit DOT (basename p) with
  | Some (_, e) => e
  | None => ""
  end.

Definition tfile (p : string) (modified : Z) : TFile :=
  {| path := p; name := basename p; extension := extname p;
     stat := {| mtime := modified |} |}.

(** Modelled from the spec: [pathExists], as [getAbstractFileByPath]. *)
Definition abstract_at (v : gmap string node) (p : string) : option TAbstractFile :=
  match v !! p with
  | Some (NFile modified _) => Some (AFile (tfile p modified))
  | Some NFolder => Some (AFolder {| folder_path := p |})
  | None => None
  end.

(** Modelled from the spec: the folder that would hold [p] exists; the
    root always does. *)
Definition parent_exists (v : gmap string node) (p : string) : bool :=
  match dirname p with
  | "" => true
  | d => match v !! d with
         | Some NFolder => true
         | _ => false
         end
  end.

Definition with_files (w : world) (v : gmap string node) : world :=
  {| files := v; clock := clock w; whisper := whisper w; gpt := gpt w; dice := dice w |}.

(** Modelled from the spec: [readBytes(path) -> bytes]. *)
Definition read_binary (w : world) (f : TFile) : (exn + bytes) * world :=
  match files w !! path f with
  | Some (NFile _ data) => (inr data, w)
  | _ => (inl (Error "ENOENT: no such file"), w)
  end.

(** Modelled from the spec: [writeFile(path, text)] fails if the path
    already exists. *)
Definition create_file (w : world) (p data : string) : (exn + TFile) * world :=
  match files w !! p with
  | Some _ => (inl (Error "File already exists."), w)
  | None =>
      if parent_exists (files w) p
      then (inr (tfile p (clock w)),
            with_files w (<[p := NFile (clock w) (list_byte_of_string data)]> (files w)))
      else (inl (Error "ENOENT: no such file or directory"), w)
  end.

(** Modelled from the spec: [createFolder(path)], idempotent on a folder
    that already exists. *)
Definition create_folder (w : world) (p : string) : (exn + TFolder) * world :=
  match files w !! p with
  | Some (NFile _ _) => (inl (Error "File already exists."), w)
  | Some NFolder => (inr {| folder_path := p |}, w)
  | None => (inr {| folder_path := p |}, with_files w (<[p := NFolder]> (files w)))
  end.

(** Modelled from the spec: [move(sourcePath, destPath)]; it fails when
    the source is gone, the destination is taken, or the destination
    folder is missing. *)
Definition rename_file (w : world) (a : TAbstractFile) (newPath : string) : (exn + unit) * world :=
  match files w !! abstract_path a with
  | None => (inl (Error "ENOENT: no such file"), w)
  | Some n =>
      match files w !! newPath with
      | Some _ => (inl (Error "Destination file already exists!"), w)
      | None =>
          if parent_exists (files w) newPath
          then (inr tt, with_files w (<[newPath := n]> (delete (abstract_path a) (files w))))
          else (inl (Error "ENOENT: no such file or directory"), w)
      end
  end.

(** Modelled from the spec: [transcribe(bytes, mediaType) -> text | error],
    the next answer of the script. *)
Definition transcribe (w : world) : (exn + TranscriptionResponse) * world :=
  match whisper w with
  | [] => (inl (Error "Connection error."), w)
  | r :: rest =>
      (r, {| files := files w; clock := clock w; whisper := rest; gpt := gpt w; dice := dice w |})
  end.

(** Modelled from the spec: [generateText(prompt) -> text | error], the
    next answer of the script. *)
Definition generate_text (w : world) : (exn + ChatResponse) * world :=
  match gpt w with
  | [] => (inl (Error "Connection error."), w)
  | r :: rest =>
      (r, {| files := files w; clock := clock w; whisper := whisper w; gpt := rest; dice := dice w |})
  end.

(** Modelled from the spec: a random integer in [0, 1000), the next draw
    of the script reduced modulo 1000. *)
Definition draw (w : world) : N * world :=
  match dice w with
  | [] => (0%N, w)
  | n :: rest =>
      ((n mod 1000)%N,
       {| files := files w; clock := clock w; whisper := whisper w; gpt := gpt w; dice := rest |})
  end.

(** Modelled from the spec: [pathExists] for folders, as
    [getFolderByPath]. *)
Definition folder_at (v : gmap string node) (p : string) : option TFolder :=
  match v !! p with
  | Some NFolder => Some {| folder_path := p |}
  | _ => None
  end.

(** Modelled from the spec: the host made of the storage and remote
    boundaries above. *)
Definition host : host world := {|
  settle X (c : call X) (w : world) :=
    match c in call X return (exn + X) * world with
    | ReadBinary f => read_binary w f
    | TranscriptionsCreate _ => transcribe w
    | ChatCompletionsCreate _ => generate_text w
    | VaultCreate p data => create_file w p data
    | VaultCreateFolder p => create_folder w p
    | VaultRename a newPath => rename_file w a newPath
    end;
  answer X (q : query X) (w : world) :=
    match q in query X return X * world with
    | GetAbstractFileByPath p => (abstract_at (files w) p, w)
    | GetFolderByPath p => (folder_at (files w) p, w)
    | FloorRandom1000 => draw w
    end
|}.

End Vault.

(** A formatter for hosts whose local time zone is UTC, by the civil
    calendar of the proleptic Gregorian era. *)
Module UtcMoment.

Definition two_digits (n : Z) : string :=
  (if (n <? 10)%Z then "0" else "") ++ of_number (Z.to_N n).

Definition four_digits (n : Z) : string :=
  (if (n <? 10)%Z then "000" else if (n <? 100)%Z then "00" else if (n <? 1000)%Z then "0" else "")
  ++ of_number (Z.to_N n).

Definition three_digits (n : Z) : string :=
  (if (n <? 10)%Z then "00" else if (n <? 100)%Z then "0" else "") ++ of_number (Z.to_N n).

(** Year, month and day of a count of days since 1970-01-01. *)
Definition civil_from_days (days : Z) : Z * Z * Z :=
  let z := (days + 719468)%Z in
  let era := (z / 146097)%Z in
  let doe := (z - era * 146097)%Z in
  let yoe := ((doe - doe / 1460 + doe / 36524 - doe / 146096) / 365)%Z in
  let doy := (doe - (365 * yoe + yoe / 4 - yoe / 100))%Z in
  let mp := ((5 * doy + 2) / 153)%Z in
  let d := (doy - (153 * mp + 2) / 5 + 1)%Z in
  let m := (if (mp <? 10)%Z then mp + 3 else mp - 9)%Z in
  let y := (yoe + era * 400 + (if (m <=? 2)%Z then 1 else 0))%Z in
  (y, m, d).

Definition date_of (ms : Z) : string :=
  let '(y, m, d) := civil_from_days (ms / 86400000) in
  four_digits y ++ "-" ++ two_digits m ++ "-" ++ two_digits d.

Definition hours (ms : Z) : Z := ((ms mod 86400000) / 3600000)%Z.
Definition minutes (ms : Z) : Z := ((ms mod 3600000) / 60000)%Z.
Definition seconds (ms : Z) : Z := ((ms mod 60000) / 1000)%Z.

Definition format (ms : Z) (pattern : string) : string :=
  if String.eqb pattern "YYYY-MM-DD" then date_of ms
  else if String.eqb pattern "HH.mm" then two_digits (hours ms) ++ "." ++ two_digits (minutes ms)
  else if String.eqb pattern "HH:mm" then two_digits (hours ms) ++ ":" ++ two_digits (minutes ms)
  else pattern.

Definition toISOString (ms : Z) (keepOffset : bool) : string :=
  date_of ms ++ "T" ++ two_digits (hours ms) ++ ":" ++ two_digits (minutes ms) ++ ":"
  ++ two_digits (seconds ms) ++ "." ++ three_digits (ms mod 1000)
  ++ (if keepOffset then "+00:00" else "Z").

Definition utc : Moment := {| moment_format := format; moment_toISOString := toISOString |}.

End UtcMoment.

(* ================================================================== *)
(** ** The ingestion queue                                             *)
(* ================================================================== *)

Module PQueue.

(** Modelled from the spec: the queue of section 4.7 and section 5, which
    the plugin takes from the [p-queue] package (not part of the
    repository): jobs wait in arrival order, and a job is started when
    fewer than [concurrency] jobs are in flight, on [add] and whenever a
    job settles. *)
Record t (Job : Type) := {
  concurrency : nat;
  pending : nat;
  queue : list Job
}.

Arguments concurrency {Job} _.
Arguments pending {Job} _.
Arguments queue {Job} _.

(** Modelled from the spec: [new PQueue({ concurrency })], an idle and
    empty queue. *)
Definition create {Job} (concurrency : nat) : t Job :=
  {| concurrency := concurrency; pending := 0; queue := [] |}.

(** Modelled from the spec: starts the job at the head of the queue if
    the bound allows it; returns the job started, if any. *)
Definition tryToStartAnother {Job} (q : t Job) : t Job * option Job :=
  match queue q with
  | [] => (q, None)
  | job :: rest =>
      if (pending q <? concurrency q)%nat
      then ({| concurrency := concurrency q; pending := S (pending q); queue := rest |}, Some job)
      else (q, None)
  end.

(** Modelled from the spec: [queue.add(job)] puts the job behind those
    that wait, then starts one if it may. *)
Definition add {Job} (q : t Job) (job : Job) : t Job * option Job :=
  tryToStartAnother
    {| concurrency := concurrency q; pending := pending q; queue := queue q ++ [job] |}.

(** Modelled from the spec: what the queue does when a job settles,
    whether it resolved or rejected. *)
Definition next {Job} (q : t Job) : t Job * option Job :=
  tryToStartAnother
    {| concurrency := concurrency q; pending := pred (pending q); queue := queue q |}.

End PQueue.

(** The plugin at run time: the queue of the [VoiceProcessor], the jobs
    that were started and have not settled, the state of the host, and the
    history of what happened. *)
Module Plugin.

Definition job : Type := TFile * js unit.

Inductive event :=
| Enqueued (f : TFile)
| Started (f : TFile)
| Did (f : TFile) (e : entry)
| Settled (f : TFile) (r : exn + unit).

Record state (W : Type) := {
  queue : PQueue.t job;
  active : list job;
  wld : W;
  history : list event
}.

Arguments queue {W} _.
Arguments active {W} _.
Arguments wld {W} _.
Arguments history {W} _.

(** What the event loop can do next: run the startup scan over the files
    of the vault, deliver a [create] or [rename] event to the watcher, or
    let the [i]-th job in flight take its next step. *)
Inductive action :=
| StartupScan (files : list TFile)
| VaultEvent (file : TAbstractFile)
| Resume (i : nat).

Section WithSettings.
Context `{Moment} {W : Type} (h : host W) (settings : VoiceNotesSettings).

(** [new VoiceProcessor(plugin, settings)]: [new PQueue({ concurrency: 1 })]. *)
Definition init (w : W) : state W :=
  {| queue := PQueue.create 1; active := []; wld := w; history := [] |}.

Definition started (j : option job) : list job :=
  match j with
  | Some j => [j]
  | None => []
  end.

(** [queueFile(file)]: [this.queue.add(task)]. *)
Definition queueFile (s : state W) (file : TFile) : state W :=
  let '(q, j) := PQueue.add (queue s) (file, Processor.queueTask settings file) in
  {| queue := q;
     active := active s ++ started j;
     wld := wld s;
     history := history s ++ Enqueued file :: map (fun j => Started j.1) (started j) |}.

(** One step of a job in flight; a job whose function has returned or
    thrown settles, and the queue moves on. *)
Definition resume (s : state W) (i : nat) : state W :=
  match active s !! i with
  | None => s
  | Some (f, p) =>
      match p with
      | Ret r =>
          let '(q, j) := PQueue.next (queue s) in
          {| queue := q; active := delete i (active s) ++ started j; wld := wld s;
             history := history s ++ Settled f (inr r) :: map (fun j => Started j.1) (started j) |}
      | Throw e =>
          let '(q, j) := PQueue.next (queue s) in
          {| queue := q; active := delete i (active s) ++ started j; wld := wld s;
             history := history s ++ Settled f (inl e) :: map (fun j => Started j.1) (started j) |}
      | Call c k =>
          let '(r, w) := settle h c (wld s) in
          {| queue := queue s; active := <[i := (f, k r)]> (active s); wld := w;
             history := history s ++ [Did f (Called c r)] |}
      | Ask q k =>
          let '(x, w) := answer h q (wld s) in
          {| queue := queue s; active := <[i := (f, k x)]> (active s); wld := w;
             history := history s ++ [Did f (Asked q x)] |}
      | Emit o k =>
          {| queue := queue s; active := <[i := (f, k)]> (active s); wld := wld s;
             history := history s ++ [Did f (Emitted o)] |}
      end
  end.

Definition step (s : state W) (a : action) : state W :=
  match a with
  | StartupScan files => foldl queueFile s (queueUnprocessedFiles settings files)
  | VaultEvent file => foldl queueFile s (queueFromWatcher settings file)
  | Resume i => resume s i
  end.

Definition exec (s : state W) (schedule : list action) : state W := foldl step s schedule.

End WithSettings.

(** The files handed to [queueFile], in the order of the calls. *)
Definition enqueued (l : list event) : list TFile :=
  omap (fun e => if e is Enqueued f then Some f else None) l.

(** The files whose run started, in the order of the starts. *)
Definition starts (l : list event) : list TFile :=
  omap (fun e => if e is Started f then Some f else None) l.

(** The counter of runs in flight along a history, from [n]: the largest
    value it reaches. *)
Fixpoint max_in_flight (n : nat) (l : list event) : nat :=
  match l with
  | [] => n
  | Started _ :: l => Nat.max n (max_in_flight (S n) l)
  | Settled _ _ :: l => Nat.max n (max_in_flight (pred n) l)
  | _ :: l => max_in_flight n l
  end.

(** The file whose run is in flight at the end of a history, from [cur]. *)
Fixpoint current (cur : option TFile) (l : list event) : option TFile :=
  match l with
  | [] => cur
  | Started f :: l => current (Some f) l
  | Settled _ _ :: l => current None l
  | _ :: l => current cur l
  end.

(** The runs of a history do not overlap: a run starts only when none is
    in flight, and every step and every settlement belongs to the run in
    flight. *)
Fixpoint serial (cur : option TFile) (l : list event) : Prop :=
  match l with
  | [] => True
  | Enqueued _ :: l => serial cur l
  | Started f :: l => cur = None /\ serial (Some f) l
  | Did f _ :: l => cur = Some f /\ serial cur l
  | Settled f _ :: l => cur = Some f /\ serial None l
  end.

End Plugin.

(* ================================================================== *)
(** ** Reading the front matter of a note                              *)
(* ================================================================== *)

Module FrontMatter.

(** What is left of [s] after the prefix [pre], if [s] starts with it. *)
Fixpoint strip_prefix (pre s : string) : option string :=
  match pre, s with
  | "", _ => Some s
  | String a pre', String b s' => if Ascii.eqb a b then strip_prefix pre' s' else None
  | String _ _, "" => None
  end.

(** The value of the first line [key: value] before the line that closes
    the block. *)
Fixpoint lookup_field (key : string) (lines : list string) : option string :=
  match lines with
  | [] => None
  | l :: ls =>
      if String.eqb l "---" then None
      else match strip_prefix (key ++ ": ") l with
           | Some v => Some v
           | None => lookup_field key ls
           end
  end.

(** The value of a field of the front-matter block that opens a note. *)
Definition field (key note : string) : option string :=
  match split LF note with
  | l :: ls => if String.eqb l "---" then lookup_field key ls else None
  | [] => None
  end.

(** The characters that may follow a backslash in a double-quoted scalar
    (the escapes that take hexadecimal digits are not covered). *)
Definition is_escape (c : ascii) : bool :=
  bool_decide (c ∈ DQUOTE :: list_ascii_of_string "0abtnvfre /\N_LP").

(** [s], read after an opening double quote, runs up to a closing double
    quote that ends it, every backslash on the way starting an escape. *)
Fixpoint closes (s : string) : bool :=
  match s with
  | "" => false
  | String c s' =>
      if Ascii.eqb c DQUOTE then (if s' is "" then true else false)
      else if Ascii.eqb c BACKSLASH then
        match s' with
        | String e s'' => is_escape e && closes s''
        | "" => false
        end
      else closes s'
  end.

(** The value is one well-formed double-quoted scalar. *)
Definition well_quoted (v : string) : bool :=
  match v with
  | String c s => Ascii.eqb c DQUOTE && closes s
  | "" => false
  end.

End FrontMatter.

(* ================================================================== *)
(** ** Sample data                                                     *)
(* ================================================================== *)

Module Sample.

(** A recording of 2024-05-01, 09:00 UTC, and a later one. *)
Definition rec1 : TFile :=
  {| path := "voice-notes/memo.m4a"; name := "memo.m4a"; extension := "m4a";
     stat := {| mtime := 1714554000000 |} |}.

Definition rec2 : TFile :=
  {| path := "voice-notes/idea.mp3"; name := "idea.mp3"; extension := "mp3";
     stat := {| mtime := 1714557600000 |} |}.

Definition hello : exn + TranscriptionResponse := inr {| text := Some "Hello world" |}.

Definition quick_note : exn + ChatResponse :=
  inr {| choices := [ {| message_content := Some ("Quick note" ++ nl ++ "- said hello") |} ] |}.

Definition folders : gmap string Vault.node :=
  {[ "voice-notes" := Vault.NFolder;
     "voice-notes-processed" := Vault.NFolder;
     "voice-notes-output" := Vault.NFolder ]}.

(** Both recordings in the watch folder; the remotes answer once. *)
Definition fresh : Vault.world :=
  {| Vault.files := <["voice-notes/memo.m4a" := Vault.NFile 1714554000000 []]>
                      (<["voice-notes/idea.mp3" := Vault.NFile 1714557600000 []]> folders);
     Vault.clock := 1714560000000;
     Vault.whisper := [hello];
     Vault.gpt := [quick_note];
     Vault.dice := [] |}.

(** As [fresh], with the note path and the archive path of [rec1] taken. *)
Definition occupied : Vault.world :=
  {| Vault.files := <["voice-notes-output/2024-05-01 at 09.00.md" := Vault.NFile 0 []]>
                      (<["voice-notes-processed/2024-05-01 at 09.00.m4a" := Vault.NFile 0 []]>
                         (Vault.files fresh));
     Vault.clock := 1714560000000;
     Vault.whisper := [hello];
     Vault.gpt := [quick_note];
     Vault.dice := [417; 52]%N |}.

(** As [fresh], after the processed folder was removed. *)
Definition no_archive : Vault.world :=
  {| Vault.files := delete "voice-notes-processed" (Vault.files fresh);
     Vault.clock := 1714560000000;
     Vault.whisper := [hello];
     Vault.gpt := [quick_note];
     Vault.dice := [] |}.

(** As [fresh], with a transcription service that fails the first time. *)
Definition flaky : Vault.world :=
  {| Vault.files := Vault.files fresh;
     Vault.clock := 1714560000000;
     Vault.whisper := [inl (Error "Connection error."); hello];
     Vault.gpt := [quick_note];
     Vault.dice := [] |}.

(** A headline with a double quote in it. *)
Definition quoted_headline : string := "Call " ++ dq ++ "Bob" ++ dq ++ " back".

End Sample.

(** ** Observations on the history of the plugin *)

Module History.
Import Plugin.

(** The counter of runs in flight at the end of a history, from [n]. *)
Fixpoint in_flight (n : nat) (l : list event) : nat :=
  match l with
  | [] => n
  | Started _ :: l => in_flight (S n) l
  | Settled _ _ :: l => in_flight (pred n) l
  | _ :: l => in_flight n l
  end.

(** The runs that settled, in order, with their outcome. *)
Definition settled (l : list event) : list (TFile * (exn + unit)) :=
  omap (fun e => if e is Settled f r then Some (f, r) else None) l.

(** The log of the run of one file: the entries of its [Did] events. *)
Definition log_of (f : TFile) (l : list event) : list entry :=
  omap (fun e => if e is Did g x then (if decide (path g = path f) then Some x else None) else None) l.

(** The files that a schedule hands to [queueFile], in order: those that
    the startup scan finds and those that the watcher accepts. *)
Definition arrivals (settings : VoiceNotesSettings) (schedule : list action) : list TFile :=
  List.concat (map (fun a => match a with
                        | StartupScan files => queueUnprocessedFiles settings files
                        | VaultEvent file => queueFromWatcher settings file
                        | Resume _ => []
                             end) schedule).

(** The history written by jobs that run to completion one after the
    other, each from the state of the host that its predecessor left; the
    next job starts when a job settles. *)
Fixpoint sequential {W} (h : host W) (jobs : list job) (w : W) : list event * W :=
  match jobs with
  | [] => ([], w)
  | (f, p) :: rest =>
      let '(t, res, w1) := run h p w in
      let '(l, w2) := sequential h rest w1 in
      ((map (Did f) t ++ Settled f res :: map (fun j : job => Started j.1) (take 1 rest) ++ l)%list,
       w2)
  end.

(** A function that cannot end by throwing. *)
Inductive no_throw {R} : js R -> Prop :=
| no_throw_ret r : no_throw (Ret r)
| no_throw_call X (c : call X) k : (forall r, no_throw (k r)) -> no_throw (Call c k)
| no_throw_ask X (q : query X) k : (forall x, no_throw (k x)) -> no_throw (Ask q k)
| no_throw_emit o k : no_throw k -> no_throw (Emit o k).

(** The function of a job that has run to its end with outcome [res]. *)
Definition terminal (res : exn + unit) : js unit :=
  match res with
  | inl e => Throw e
  | inr x => Ret x
  end.

(** What holds of the plugin between any two steps: the queue has bound
    one and counts the jobs in flight; a job waits only while another is in
    flight; the files enqueued are those started, then those waiting, in
    order; the files started are those settled, then the one in flight; no
    job can end by throwing, and every run that settled returned; the runs
    of the history do not overlap. *)
Record invariant {W} (s : state W) : Prop := {
  inv_bound : PQueue.concurrency (queue s) = 1;
  inv_pending : PQueue.pending (queue s) = List.length (active s);
  inv_serial : List.length (active s) <= 1;
  inv_busy : active s = [] -> PQueue.queue (queue s) = [];
  inv_fifo : enqueued (history s) = (starts (history s) ++ map fst (PQueue.queue (queue s)))%list;
  inv_count : in_flight 0 (history s) = List.length (active s);
  inv_max : max_in_flight 0 (history s) <= 1;
  inv_jobs : Forall (fun j : job => no_throw j.2) (active s ++ PQueue.queue (queue s))%list;
  inv_settled : Forall (fun x : TFile * (exn + unit) => x.2 = inr tt) (settled (history s));
  inv_started : starts (history s) = (map fst (settled (history s)) ++ map fst (active s))%list;
  inv_current : current None (history s) = fst <$> head (active s);
  inv_order : serial None (history s)
}.

End History.

(* ================================================================== *)
(** ** main.ts: loading, changing and saving the settings              *)
(* ================================================================== *)

Module Settings.

(** The settings as the object that [loadData] returns and [saveData]
    stores: its own keys with their values, the strings that the settings
    tab writes. *)
Definition DEFAULT_SETTINGS_object : gmap string string :=
  {[ "openAIAPIKey" := "";
     "watchDirectory" := "voice-notes";
     "processedDirectory" := "voice-notes-processed";
     "outputDirectory" := "voice-notes-output" ]}.

(** [Object.assign(target, ...sources)]: the keys of each source are
    written over the target, in order; a source that is [null] or
    [undefined] is skipped. *)
Definition Object_assign (target : gmap string string)
    (sources : list (option (gmap string string))) : gmap string string :=
  foldl (fun acc source => match source with
                           | Some o => o ∪ acc
                           | None => acc
                           end) target sources.

(** [loadSettings], from what [loadData] resolves to. *)
Definition loadSettings (data : option (gmap string string)) : gmap string string :=
  Object_assign ∅ [Some DEFAULT_SETTINGS_object; data].

(** The fields of the settings that the plugin reads; a key that is
    missing reads as the empty string here. *)
Definition to_record (o : gmap string string) : VoiceNotesSettings :=
  {| openAIAPIKey := default "" (o !! "openAIAPIKey");
     watchDirectory := default "" (o !! "watchDirectory");
     processedDirectory := default "" (o !! "processedDirectory");
     outputDirectory := default "" (o !! "outputDirectory") |}.

(** The plugin with what it keeps of the settings: the object
    [this.settings], which the processor shares; the data that the host
    stores for the plugin; and the key that the OpenAI client of the
    processor was built with. *)
Record plugin := {
  settings : gmap string string;
  data : option (gmap string string);
  client_key : option string
}.

(** [onload]: [loadSettings], then [new VoiceProcessor(this, this.settings)],
    whose constructor builds the client from [settings.openAIAPIKey]. *)
Definition onload (stored : option (gmap string string)) : plugin :=
  let s := loadSettings stored in
  {| settings := s; data := stored; client_key := s !! "openAIAPIKey" |}.

(** [saveSettings]: [saveData(this.settings)]. *)
Definition saveSettings (p : plugin) : plugin :=
  {| settings := settings p; data := Some (settings p); client_key := client_key p |}.

(** The four text controls of the settings tab. *)
Inductive control :=
| OpenAIAPIKey
| WatchDirectory
| ProcessedDirectory
| OutputDirectory.

Definition key_of (c : control) : string :=
  match c with
  | OpenAIAPIKey => "openAIAPIKey"
  | WatchDirectory => "watchDirectory"
  | ProcessedDirectory => "processedDirectory"
  | OutputDirectory => "outputDirectory"
  end.

(** The [onChange] handler of a control: it writes the field of
    [this.plugin.settings] and saves. *)
Definition onChange (c : control) (value : string) (p : plugin) : plugin :=
  saveSettings {| settings := <[key_of c := value]> (settings p);
                  data := data p; client_key := client_key p |}.

(** A session of the settings tab: the changes made, in order. *)
Definition session (stored : option (gmap string string)) (changes : list (control * string)) : plugin :=
  foldl (fun p change => onChange change.1 change.2 p) (onload stored) changes.

End Settings.

(* ================================================================== *)
(** ** Further observations on logs and strings                        *)
(* ================================================================== *)

(** The place of a call in a run: reading the recording, the two remote
    calls, writing the note, moving the recording. *)
Definition stage_of (e : entry) : option nat :=
  match e with
  | Called c _ =>
      match c with
      | ReadBinary _ => Some 0
      | TranscriptionsCreate _ => Some 1
      | ChatCompletionsCreate _ => Some 2
      | VaultCreate _ _ => Some 3
      | VaultRename _ _ => Some 4
      | VaultCreateFolder _ => None
      end
  | _ => None
  end.

Definition stages (t : list entry) : list nat := omap stage_of t.

(** Every character of the string is white space. *)
Definition all_white (s : string) : Prop :=
  Forall (fun c => is_white_space c = true) (list_ascii_of_string s).

(** The string starts, or ends, with white space. *)
Definition starts_white (s : string) : bool :=
  match s with
  | "" => false
  | String c _ => is_white_space c
  end.

Fixpoint ends_white (s : string) : bool :=
  match s with
  | "" => false
  | String c "" => is_white_space c
  | String _ s' => ends_white s'
  end.

(** The job that [queueFile] makes of a file. *)
Definition job_of `{Moment} (settings : VoiceNotesSettings) (file : TFile) : Plugin.job :=
  (file, Processor.queueTask settings file).

(* ================================================================== *)
(** * Properties                                                       *)
(* ================================================================== *)

(** ** Strings *)

(** Appending to a literal computes. *)
Arguments String.append !_ _ / : simpl nomatch.

Section StringFacts.

Lemma append_nil_r (s : string) : s ++ "" = s.
Proof. induction s as [|c s IH]; simpl; [reflexivity | by f_equal]. Qed.

Lemma append_assoc (a b c : string) : (a ++ b) ++ c = a ++ (b ++ c).
Proof. induction a as [|x a IH]; simpl; [reflexivity | by f_equal]. Qed.

Lemma append_cancel_l (a b c : string) : a ++ b = a ++ c -> b = c.
Proof. induction a as [|x a IH]; simpl; [tauto | intros [= E]; auto]. Qed.

Lemma prefix_true_iff (sub s : string) :
  String.prefix sub s = true <-> exists post, s = sub ++ post.
Proof.
  revert s. induction sub as [|c sub IH]; intros s.
  - destruct s; simpl; split; eauto.
  - destruct s as [|d s]; simpl.
    + split; [discriminate | intros [post [=]]].
    + destruct (ascii_dec c d) as [->|Hne].
      * rewrite IH. split; intros [post E]; exists post; [by rewrite E | by injection E].
      * split; [discriminate | intros [post [= E1 E2]]; congruence].
Qed.

Lemma includes_nil (sub : string) : includes "" sub = String.prefix sub "".
Proof. unfold includes. apply orb_false_r. Qed.

Lemma includes_cons (c : ascii) (s sub : string) :
  includes (String c s) sub = String.prefix sub (String c s) || includes s sub.
Proof. reflexivity. Qed.

(** [includes] is substring containment at any offset. *)
Lemma includes_true_iff (s sub : string) :
  includes s sub = true <-> exists pre post, s = pre ++ sub ++ post.
Proof.
  induction s as [|c s IH].
  - rewrite includes_nil, prefix_true_iff. split.
    + intros [post E]. exists "", post. exact E.
    + intros (pre & post & E). destruct pre; simpl in E; [eauto | discriminate].
  - rewrite includes_cons, orb_true_iff, prefix_true_iff, IH. split.
    + intros [[post E] | (pre & post & E)].
      * exists "", post. exact E.
      * exists (String c pre), post. simpl. by rewrite E.
    + intros (pre & post & E). destruct pre as [|d pre]; simpl in E.
      * left. eauto.
      * right. injection E as _ E. eauto.
Qed.

(** [split] always returns a first segment. *)
Lemma split_cons (sep : ascii) (s : string) : exists l ls, split sep s = l :: ls.
Proof.
  destruct s as [|c s]; simpl; [eauto|].
  destruct (Ascii.eqb c sep); [eauto|]. destruct (split sep s); eauto.
Qed.

Lemma join_cons (sep l : string) (ls : list string) :
  ls <> [] -> join sep (l :: ls) = l ++ sep ++ join sep ls.
Proof. destruct ls; [congruence | reflexivity]. Qed.

(** Joining the segments with the separator gives the string back. *)
Lemma join_split (sep : ascii) (s : string) : join (String sep "") (split sep s) = s.
Proof.
  induction s as [|c s IH]; [reflexivity|]. cbn [split].
  destruct (split_cons sep s) as (l & ls & E). rewrite E in *.
  destruct (Ascii.eqb c sep) eqn:Ec.
  - apply Ascii.eqb_eq in Ec as ->. rewrite join_cons, IH by discriminate. reflexivity.
  - destruct ls as [|l' ls].
    + simpl in *. by rewrite IH.
    + rewrite join_cons by discriminate. rewrite join_cons in IH by discriminate.
      transitivity (String c (l ++ String sep "" ++ join (String sep "") (l' :: ls)));
        [reflexivity | by rewrite IH].
Qed.

(** The first segment is the text up to the first separator: it holds no
    separator, and the text is this segment alone, or this segment, one
    separator, and the other segments joined. *)
Lemma split_first (sep : ascii) (s : string) :
  exists l ls, split sep s = l :: ls
    /\ ~ In sep (list_ascii_of_string l)
    /\ (ls = [] /\ s = l \/ ls <> [] /\ s = l ++ String sep "" ++ join (String sep "") ls).
Proof.
  induction s as [|c s (l & ls & E & Hl & Hs)].
  - exists "", []. simpl. tauto.
  - cbn [split]. rewrite E. destruct (Ascii.eqb c sep) eqn:Ec.
    + apply Ascii.eqb_eq in Ec as ->. exists "", (l :: ls). split; [reflexivity|].
      split; [simpl; tauto|]. right. split; [discriminate|].
      rewrite <- E, join_split. reflexivity.
    + apply Ascii.eqb_neq in Ec. exists (String c l), ls. split; [reflexivity|]. split.
      * simpl. intros [->|Hin]; [congruence | auto].
      * destruct Hs as [[-> ->] | [Hne ->]]; [left | right]; auto.
Qed.

Lemma In_append (c : ascii) (a b : string) :
  In c (list_ascii_of_string (a ++ b)) <->
  In c (list_ascii_of_string a) \/ In c (list_ascii_of_string b).
Proof. induction a as [|x a IH]; simpl; [tauto | rewrite IH; tauto]. Qed.

(** A line without separator, then the separator: it is the first
    segment, and the rest is split on its own. *)
Lemma split_line (sep : ascii) (l rest : string) :
  ~ In sep (list_ascii_of_string l) ->
  split sep (l ++ String sep "" ++ rest) = l :: split sep rest.
Proof.
  change (String sep "" ++ rest) with (String sep rest).
  induction l as [|c l IH]; simpl; intros Hl.
  - by rewrite Ascii.eqb_refl.
  - destruct (Ascii.eqb c sep) eqn:Ec.
    + apply Ascii.eqb_eq in Ec. tauto.
    + by rewrite IH by tauto.
Qed.

Example split_trailing_line_break :
  split LF ("a" ++ nl ++ "b" ++ nl) = ["a"; "b"; ""].
Proof. reflexivity. Qed.

Example trim_both_ends : trim ("  at noon " ++ nl) = "at noon".
Proof. reflexivity. Qed.

Example includes_empty : includes "voice-notes/a.mp3" "" = true.
Proof. reflexivity. Qed.

End StringFacts.

(** ** The candidate filter *)

Lemma isAudioFile_true_iff (f : TFile) :
  isAudioFile f = true <-> extension f = "mp3" \/ extension f = "m4a".
Proof. unfold isAudioFile. by rewrite orb_true_iff, !String.eqb_eq. Qed.

Lemma shouldProcessFile_true_iff (settings : VoiceNotesSettings) (file : TAbstractFile) :
  shouldProcessFile settings file = true <->
  exists f, file = AFile f
    /\ (extension f = "mp3" \/ extension f = "m4a")
    /\ exists pre post, path f = pre ++ watchDirectory settings ++ post.
Proof.
  unfold shouldProcessFile.
  rewrite !andb_true_iff, includes_true_iff. destruct file as [f|d]; simpl.
  - rewrite isAudioFile_true_iff. split.
    + intros [[Hp _] He]. eauto.
    + intros (f' & [= <-] & He & Hp). auto.
  - split; [intros [_ [=]] | intros (f' & [=] & _)].
Qed.

(** C6.  [shouldProcessFile] holds exactly of the regular files ([TFile]s)
    whose extension is [mp3] or [m4a] and whose path contains the watch
    directory as a substring, at any offset; whatever the path, a file with
    another extension is rejected. *)
Theorem shouldProcessFile_spec (settings : VoiceNotesSettings) (file : TAbstractFile) :
  (shouldProcessFile settings file = true <->
     exists f, file = AFile f
       /\ (extension f = "mp3" \/ extension f = "m4a")
       /\ exists pre post, path f = pre ++ watchDirectory settings ++ post)
  /\ (forall f, file = AFile f -> extension f <> "mp3" -> extension f <> "m4a" ->
        shouldProcessFile settings file = false).
Proof.
  split; [apply shouldProcessFile_true_iff|].
  intros f -> H1 H2. unfold shouldProcessFile. simpl.
  destruct (isAudioFile f) eqn:E; [|by rewrite andb_false_r].
  apply isAudioFile_true_iff in E. tauto.
Qed.

(** The containment test also accepts a watch directory that occurs inside
    the path without being its prefix. *)
Example shouldProcessFile_non_prefix :
  shouldProcessFile DEFAULT_SETTINGS
    (AFile {| path := "archive/old-voice-notes/a.mp3"; name := "a.mp3";
              extension := "mp3"; stat := {| mtime := 0 |} |}) = true.
Proof. reflexivity. Qed.

(** ** Runs *)

Section RunFacts.
Context {W : Type} (h : host W).

Lemma run_bind {A B} (p : js A) (f : A -> js B) (w : W) :
  run h (bind p f) w =
  let '(t1, r1, w1) := run h p w in
  match r1 with
  | inl e => (t1, inl e, w1)
  | inr a => let '(t2, r2, w2) := run h (f a) w1 in ((t1 ++ t2)%list, r2, w2)
  end.
Proof.
  revert w. induction p as [r|e|X c k IH|X q k IH|o k IH]; intros w; simpl.
  - by destruct (run h (f r) w) as [[t2 r2] w2].
  - reflexivity.
  - destruct (settle h c w) as [r w1]. rewrite IH.
    destruct (run h (k r) w1) as [[t1 [e|a]] w2]; [reflexivity|].
    by destruct (run h (f a) w2) as [[t2 r2] w3].
  - destruct (answer h q w) as [x w1]. rewrite IH.
    destruct (run h (k x) w1) as [[t1 [e|a]] w2]; [reflexivity|].
    by destruct (run h (f a) w2) as [[t2 r2] w3].
  - rewrite IH. destruct (run h k w) as [[t1 [e|a]] w2]; [reflexivity|].
    by destruct (run h (f a) w2) as [[t2 r2] w3].
Qed.

Lemma run_try_catch {A} (p : js A) (c : exn -> js A) (w : W) :
  run h (try_catch p c) w =
  let '(t1, r1, w1) := run h p w in
  match r1 with
  | inl e => let '(t2, r2, w2) := run h (c e) w1 in ((t1 ++ t2)%list, r2, w2)
  | inr a => (t1, inr a, w1)
  end.
Proof.
  revert w. induction p as [r|e|X c' k IH|X q k IH|o k IH]; intros w; simpl.
  - reflexivity.
  - by destruct (run h (c e) w) as [[t2 r2] w2].
  - destruct (settle h c' w) as [r w1]. rewrite IH.
    destruct (run h (k r) w1) as [[t1 [e|a]] w2]; [|reflexivity].
    by destruct (run h (c e) w2) as [[t2 r2] w3].
  - destruct (answer h q w) as [x w1]. rewrite IH.
    destruct (run h (k x) w1) as [[t1 [e|a]] w2]; [|reflexivity].
    by destruct (run h (c e) w2) as [[t2 r2] w3].
  - rewrite IH. destruct (run h k w) as [[t1 [e|a]] w2]; [|reflexivity].
    by destruct (run h (c e) w2) as [[t2 r2] w3].
Qed.

End RunFacts.

(** Symbolic execution of a run against an arbitrary host: one case per
    answer of the host at each call, and per branch taken on an answer. *)
Ltac js_step h :=
  match goal with
  | |- context [@settle _ h ?X ?c ?w] =>
      let r := fresh "r" in
      let w' := fresh "w" in
      destruct (@settle _ h X c w) as [[? | r] w'] eqn:?
  | |- context [@answer _ h ?X ?q ?w] =>
      let x := fresh "x" in
      let w' := fresh "w" in
      destruct (@answer _ h X q w) as [x w'] eqn:?
  | |- context [falsy ?x] => destruct (falsy x) eqn:?
  | |- context [choices ?r] => destruct (choices r) as [|? ?] eqn:?
  | |- context [run _ (bind (match ?x with _ => _ end) _) _] => destruct x
  | |- context [run _ (match ?x with _ => _ end) _] => destruct x
  end; cbn.

Ltac js_exec h := unfold mbind, js_bind, mret, js_ret, await, ask, emit; cbn; repeat js_step h.

(** ** The reference vault *)

Section VaultFacts.
Import Vault.

Lemma settle_files {X} (c : call X) (w : world) :
  is_write (Called c (settle host c w).1) = false ->
  files (settle host c w).2 = files w.
Proof.
  destruct c; simpl.
  - unfold read_binary. by repeat case_match.
  - unfold transcribe. by repeat case_match.
  - unfold generate_text. by repeat case_match.
  - unfold create_file. by repeat case_match.
  - unfold create_folder. by repeat case_match.
  - unfold rename_file. by repeat case_match.
Qed.

Lemma answer_files {X} (q : query X) (w : world) :
  files (answer host q w).2 = files w.
Proof. destruct q; simpl; [reflexivity | reflexivity |]. unfold draw. by case_match. Qed.

(** A run in which no [create], [createFolder] or [rename] succeeded
    leaves every file and folder of the vault as it was. *)
Lemma run_without_write {R} (p : js R) (w : world) :
  Forall (fun e => is_write e = false) (trace_of (run host p w)) ->
  files (world_of (run host p w)) = files w.
Proof.
  revert w. induction p as [r|e|X c k IH|X q k IH|o k IH]; intros w; cbn [run].
  - reflexivity.
  - reflexivity.
  - pose proof (settle_files c w) as Hc.
    destruct (settle host c w) as [r w1]. specialize (IH r w1).
    destruct (run host (k r) w1) as [[t res] w2]. unfold trace_of, world_of in *. simpl in *.
    intros Hall. apply Forall_cons in Hall as [He Ht]. rewrite IH, Hc; auto.
  - pose proof (answer_files q w) as Hq.
    destruct (answer host q w) as [x w1]. specialize (IH x w1).
    destruct (run host (k x) w1) as [[t res] w2]. unfold trace_of, world_of in *. simpl in *.
    intros Hall. apply Forall_cons in Hall as [_ Ht]. rewrite IH, Hq; auto.
  - specialize (IH w). destruct (run host k w) as [[t res] w2].
    unfold trace_of, world_of in *. simpl in *.
    intros Hall. apply Forall_cons in Hall as [_ Ht]. auto.
Qed.

End VaultFacts.

Section Pipeline.
Context `{Moment} {W : Type} (h : host W) (settings : VoiceNotesSettings).

Local Arguments Processor.formatToMarkdown : simpl never.
Local Arguments Processor.system_prompt : simpl never.
Local Arguments Processor.user_prompt : simpl never.
Local Arguments Processor.baseFileName : simpl never.
Local Arguments String.append : simpl never.
Local Arguments String.prefix : simpl never.

Lemma prefix_dir (dir rest : string) : String.prefix (dir ++ "/") (dir ++ "/" ++ rest) = true.
Proof. apply prefix_true_iff. exists rest. symmetry. apply append_assoc. Qed.


Ltac unfold_pipeline :=
  unfold Processor.queueTask, Processor.processAudioFile, Processor.transcribeAudio,
    Processor.enhanceTranscript, Processor.first_choice_content.

Lemma no_note_no_write {V} (g : host V) (file : TFile) (w : V) :
  let t := trace_of (run g (Processor.processAudioFile settings file) w) in
  notes_written t = [] -> Forall (fun e => is_write e = false) t.
Proof.
  unfold_pipeline. js_exec g.
  all: try discriminate.
  all: intros _; repeat constructor.
Qed.

Lemma rename_follows_note {V} (g : host V) (file : TFile) (w : V) :
  let t := trace_of (run g (Processor.processAudioFile settings file) w) in
  match notes_written t with
  | [] => renames t = []
  | _ :: _ => exists target moved,
      renames t = [(AFile file, target, moved)]
      /\ String.prefix (processedDirectory settings ++ "/") target = true
  end.
Proof.
  unfold_pipeline. js_exec g.
  all: try reflexivity.
  all: eexists _, _; split; [reflexivity | apply prefix_dir].
Qed.

(** C1.  In every run of [processAudioFile], against any host, the source
    file is handed to [vault.rename] exactly when the note was written: if
    [vault.create] did not succeed there is no rename at all, and on the
    reference vault the files are then exactly as before the run; if it
    succeeded there is one rename, of the source file, to a path inside the
    processed directory. *)
Theorem relocation_iff_note_written (file : TFile) :
  (forall w : W,
     let t := trace_of (run h (Processor.processAudioFile settings file) w) in
     match notes_written t with
     | [] => renames t = []
     | _ :: _ => exists target moved,
         renames t = [(AFile file, target, moved)]
         /\ String.prefix (processedDirectory settings ++ "/") target = true
     end)
  /\ (forall v : Vault.world,
       let r := run Vault.host (Processor.processAudioFile settings file) v in
       notes_written (trace_of r) = [] -> Vault.files (world_of r) = Vault.files v).
Proof.
  split.
  - intros w. apply rename_follows_note.
  - intros v r Hnone. apply run_without_write. revert Hnone. subst r.
    apply no_note_no_write.
Qed.

Lemma transcription_failed_inv (t : list entry) (r : exn + TranscriptionResponse) :
  omap transcription_of t = [r] -> transcription_failed t -> transcription_unusable r = true.
Proof. intros E (r' & Hin & Hbad). rewrite E in Hin. by apply list_elem_of_singleton in Hin as ->. Qed.

Lemma summarization_failed_inv (t : list entry) (r : exn + ChatResponse) :
  omap summarization_of t = [r] -> summarization_failed t -> summarization_unusable r = true.
Proof. intros E (r' & Hin & Hbad). rewrite E in Hin. by apply list_elem_of_singleton in Hin as ->. Qed.

Lemma failed_step_generic {V} (g : host V) (file : TFile) (w : V) :
  let r := run g (Processor.processAudioFile settings file) w in
  (transcription_failed (trace_of r) \/ summarization_failed (trace_of r) ->
     creates (trace_of r) = [] /\ renames (trace_of r) = [] /\ exists e, result_of r = inl e)
  /\ (result_of r = inr tt ->
       exists p data, creates (trace_of r) = [(p, data, true)]
                      /\ notes_written (trace_of r) = [(p, data)]).
Proof.
  unfold_pipeline. js_exec g.
  all: split; [| first [discriminate | intros _; eexists _, _; split; reflexivity]].
  all: try (intros _; repeat split; eauto; fail).
  all: intros [Hf | Hf]; exfalso.
  all: try (eapply transcription_failed_inv in Hf; [|reflexivity]; simpl in Hf; congruence).
  all: try (eapply summarization_failed_inv in Hf; [|reflexivity];
            unfold summarization_unusable, response_content in Hf;
            match goal with E : choices _ = _ |- _ => rewrite E in Hf end; congruence).
  all: try (destruct Hf as (? & Hin & _); by apply elem_of_nil in Hin).
Qed.

(** C2.  When the transcription or the summarization of a run fails (the
    remote call raises, or its text or content is empty or absent), the
    run calls neither [vault.create] nor [vault.rename] and ends in an
    error, and on the reference vault the files are as before; a run that
    returns normally has written exactly one note, by its only
    [vault.create]. *)
Theorem failed_step_writes_nothing (file : TFile) :
  (forall w : W,
     let r := run h (Processor.processAudioFile settings file) w in
     (transcription_failed (trace_of r) \/ summarization_failed (trace_of r) ->
        creates (trace_of r) = [] /\ renames (trace_of r) = [] /\ exists e, result_of r = inl e)
     /\ (result_of r = inr tt ->
          exists p data, creates (trace_of r) = [(p, data, true)]
                         /\ notes_written (trace_of r) = [(p, data)]))
  /\ (forall v : Vault.world,
       let r := run Vault.host (Processor.processAudioFile settings file) v in
       transcription_failed (trace_of r) \/ summarization_failed (trace_of r) ->
       Vault.files (world_of r) = Vault.files v).
Proof.
  split.
  - intros w. apply failed_step_generic.
  - intros v r Hf. subst r. apply run_without_write, no_note_no_write.
    destruct (failed_step_generic Vault.host file v) as [Hfail _].
    destruct (Hfail Hf) as (Hc & _). unfold notes_written. by rewrite Hc.
Qed.


(** C7.  [enhanceTranscript] makes one remote call.  When the call
    resolves with a non-empty content, it returns the headline and the
    body where the headline is the content up to its first line break (the
    whole content if there is none) and the body is what follows that line
    break, trimmed; it fails exactly when the call rejects or the content
    is empty or absent. *)
Theorem enhanceTranscript_first_line (transcript : string) (w : W) :
  let r := run h (Processor.enhanceTranscript transcript) w in
  exists req answer,
    trace_of r = [Called (ChatCompletionsCreate req) answer]
    /\ if summarization_unusable answer
       then exists e, result_of r = inl e
       else exists response text headline rest,
         answer = inr response
         /\ response_content response = Some text
         /\ result_of r = inr (headline, trim rest)
         /\ ~ In LF (list_ascii_of_string headline)
         /\ (text = headline /\ rest = "" \/ text = headline ++ nl ++ rest).
Proof.
  unfold Processor.enhanceTranscript, Processor.first_choice_content. js_exec h.
  all: eexists _, _; split; [reflexivity|].
  all: unfold summarization_unusable, response_content.
  all: try match goal with E : choices _ = _ |- _ => rewrite E end.
  all: try match goal with E : falsy _ = _ |- _ => rewrite E end.
  all: cbn [falsy]; eauto.
  match goal with
  | Hc : choices ?r = ?c :: _, Hf : falsy (message_content ?c) = false |- _ =>
      destruct (message_content c) as [txt|] eqn:Et; [|discriminate];
      destruct (split_first LF txt) as (hl & tl & E & Hl & Hs);
      exists r, txt, hl, (join nl tl);
      split; [reflexivity|]; split; [by rewrite Hc|]
  end.
  split; [unfold default, id; rewrite E; reflexivity|]. split; [exact Hl|].
  destruct Hs as [[-> ->] | [Hne ->]]; [left | right]; auto.
Qed.



End Pipeline.

(** ** The note renderer *)

Section Renderer.
Context `{Moment}.
Import FrontMatter.

Lemma strip_prefix_append (pre v : string) : strip_prefix pre (pre ++ v) = Some v.
Proof.
  induction pre as [|c pre IH]; simpl; [by destruct v | by rewrite Ascii.eqb_refl].
Qed.

(** The front matter starts with the [source] line and the [summary] line. *)
Lemma formatToMarkdown_lines (a : Processor.MarkdownArgs) :
  exists rest,
    Processor.formatToMarkdown a =
    "---" ++ nl ++
    ("source: " ++ dq ++ "[[" ++ Processor.audioFileName a ++ "]]" ++ dq) ++ nl ++
    ("summary: " ++ dq ++ Processor.summary a ++ dq) ++ nl ++ rest.
Proof.
  eexists. unfold Processor.formatToMarkdown. rewrite !append_assoc. reflexivity.
Qed.

(** Without backslash in [s], the scalar [s] followed by a double quote is
    closed properly exactly when [s] holds no double quote. *)
Lemma closes_verbatim (s : string) :
  ~ In BACKSLASH (list_ascii_of_string s) ->
  closes (s ++ dq) = true <-> ~ In DQUOTE (list_ascii_of_string s).
Proof.
  induction s as [|c s IH]; intros Hb.
  - simpl. tauto.
  - cbn [String.append closes list_ascii_of_string In] in *.
    destruct (Ascii.eqb c DQUOTE) eqn:Eq.
    + apply Ascii.eqb_eq in Eq as ->. destruct s; simpl; split; (discriminate || tauto).
    + apply Ascii.eqb_neq in Eq. destruct (Ascii.eqb c BACKSLASH) eqn:Eb.
      * apply Ascii.eqb_eq in Eb. exfalso. auto.
      * rewrite IH by tauto. split; [intros Hs [?|?]; [congruence | tauto] | tauto].
Qed.

Lemma no_LF_dashes : ~ In LF (list_ascii_of_string "---").
Proof. simpl. intros [E|[E|[E|[]]]]; discriminate E. Qed.

(** Reading a field that stands on the second line of the block. *)
Lemma field_second_line (key l1 l2 v rest : string) :
  ~ In LF (list_ascii_of_string l1) ->
  ~ In LF (list_ascii_of_string l2) ->
  String.eqb l1 "---" = false ->
  strip_prefix (key ++ ": ") l1 = None ->
  String.eqb l2 "---" = false ->
  strip_prefix (key ++ ": ") l2 = Some v ->
  field key ("---" ++ nl ++ l1 ++ nl ++ l2 ++ nl ++ rest) = Some v.
Proof.
  intros H1 H2 E1 S1 E2 S2. unfold field, nl.
  rewrite (split_line LF "---") by apply no_LF_dashes.
  rewrite (split_line LF l1) by exact H1.
  rewrite (split_line LF l2) by exact H2.
  cbn [lookup_field]. rewrite String.eqb_refl, E1, S1, E2, S2. reflexivity.
Qed.

(** C8, as amended.  [formatToMarkdown] writes the headline between two
    double quotes as it is, without escaping anything: for a headline and
    an audio file name without line break, the [summary] field of the front
    matter is a double quote, the headline, and a double quote; and for a
    headline without backslash this value is a well-formed double-quoted
    scalar exactly when the headline holds no double quote. *)
Theorem summary_field_verbatim (a : Processor.MarkdownArgs) :
  ~ In LF (list_ascii_of_string (Processor.audioFileName a)) ->
  ~ In LF (list_ascii_of_string (Processor.summary a)) ->
  field "summary" (Processor.formatToMarkdown a) = Some (dq ++ Processor.summary a ++ dq)
  /\ (~ In BACKSLASH (list_ascii_of_string (Processor.summary a)) ->
      well_quoted (dq ++ Processor.summary a ++ dq) = true
      <-> ~ In DQUOTE (list_ascii_of_string (Processor.summary a))).
Proof.
  intros Ha Hs. split.
  - destruct (formatToMarkdown_lines a) as [rest ->].
    apply field_second_line; try reflexivity.
    + rewrite !In_append. simpl.
      intros [[E|[E|[E|[E|[E|[E|[E|[E|[]]]]]]]]]|[[E|[]]|[[E|[E|[]]]|[?|[[E|[E|[]]]|[E|[]]]]]]];
        try discriminate E; auto.
    + rewrite !In_append. simpl.
      intros [[E|[E|[E|[E|[E|[E|[E|[E|[E|[]]]]]]]]]]|[[E|[]]|[?|[E|[]]]]];
        try discriminate E; auto.
  - intros Hb. unfold well_quoted. simpl. by apply closes_verbatim.
Qed.

End Renderer.

(** ** Startup *)

Section Startup.




End Startup.

(** ** The ingestion queue *)

Section Queue.
Context `{Moment} {W : Type} (h : host W) (settings : VoiceNotesSettings).
Import Plugin History.
Local Open Scope list_scope.

Lemma max_in_flight_ge (n : nat) (l : list event) : n <= max_in_flight n l.
Proof. revert n. induction l as [|[] l IH]; intros n; simpl; try lia; auto. Qed.

Lemma max_in_flight_app (n : nat) (l l' : list event) :
  max_in_flight n (l ++ l') = Nat.max (max_in_flight n l) (max_in_flight (in_flight n l) l').
Proof.
  revert n. induction l as [|e l IH]; intros n; simpl.
  - pose proof (max_in_flight_ge n l'). lia.
  - destruct e; rewrite IH; lia.
Qed.

Lemma in_flight_app (n : nat) (l l' : list event) :
  in_flight n (l ++ l') = in_flight (in_flight n l) l'.
Proof. revert n. induction l as [|[] l IH]; intros n; simpl; auto. Qed.

(** *** Failures stay inside the queued task *)

Lemma no_throw_inv {R} (p : js R) :
  no_throw p ->
  match p with
  | Ret _ => True
  | Throw _ => False
  | Call c k => forall r, no_throw (k r)
  | Ask q k => forall x, no_throw (k x)
  | Emit o k => no_throw k
  end.
Proof. intros []; auto. Qed.

Lemma no_throw_try_catch {R} (p : js R) (c : exn -> js R) :
  (forall e, no_throw (c e)) -> no_throw (try_catch p c).
Proof.
  intros Hc. induction p as [r|e|X c' k IH|X q k IH|o k IH]; simpl; auto;
    constructor; auto.
Qed.

Lemma no_throw_queueTask (file : TFile) : no_throw (Processor.queueTask settings file).
Proof.
  unfold Processor.queueTask. apply no_throw_try_catch. intros e.
  repeat constructor.
Qed.

Lemma no_throw_run {R} (p : js R) (w : W) :
  no_throw p -> exists r, result_of (run h p w) = inr r.
Proof.
  intros Hp. revert w. induction Hp as [r|X c k _ IH|X q k _ IH|o k _ IH]; intros w; cbn [run].
  - by exists r.
  - destruct (settle h c w) as [r w1]. destruct (IH r w1) as [x Hx].
    destruct (run h (k r) w1) as [[t res] w2]. by exists x.
  - destruct (answer h q w) as [y w1]. destruct (IH y w1) as [x Hx].
    destruct (run h (k y) w1) as [[t res] w2]. by exists x.
  - destruct (IH w) as [x Hx]. destruct (run h k w) as [[t res] w2]. by exists x.
Qed.

(** The log of the queued task: the first notice, the log of the
    pipeline, and the notice of success, or the notice of failure with the
    error on the console. *)
Lemma queueTask_trace (file : TFile) (w : W) :
  let p := run h (Processor.processAudioFile settings file) w in
  let r := run h (Processor.queueTask settings file) w in
  result_of r = inr tt
  /\ world_of r = world_of p
  /\ trace_of r =
     Emitted (Notice ("Processing audio file: " ++ path file)%string) :: trace_of p ++
     match result_of p with
     | inr _ => [Emitted (Notice ("Transcribed: " ++ path file)%string)]
     | inl e => [Emitted (Notice ("Failed to process: " ++ path file)%string);
                 Emitted (ConsoleError e)]
     end.
Proof.
  unfold Processor.queueTask, mbind, js_bind, emit. cbn [bind].
  cbn [try_catch run]. rewrite run_try_catch, run_bind.
  destruct (run h (Processor.processAudioFile settings file) w) as [[t [e|[]]] w1]; simpl.
  all: repeat split.
  all: rewrite ?app_nil_r, <- ?app_assoc; reflexivity.
Qed.

Lemma enqueued_app (l l' : list event) : enqueued (l ++ l') = enqueued l ++ enqueued l'.
Proof. apply omap_app. Qed.

Lemma starts_app (l l' : list event) : starts (l ++ l') = starts l ++ starts l'.
Proof. apply omap_app. Qed.

Lemma settled_app (l l' : list event) : settled (l ++ l') = settled l ++ settled l'.
Proof. apply omap_app. Qed.

Lemma current_app (cur : option TFile) (l l' : list event) :
  current cur (l ++ l') = current (current cur l) l'.
Proof. revert cur. induction l as [|[] l IH]; intros cur; simpl; auto. Qed.

Lemma serial_app (cur : option TFile) (l l' : list event) :
  serial cur (l ++ l') <-> serial cur l /\ serial (current cur l) l'.
Proof.
  revert cur. induction l as [|[] l IH]; intros cur; simpl; rewrite ?IH; tauto.
Qed.

Lemma invariant_init (w : W) : invariant (init w).
Proof. split; simpl; auto. Qed.

Ltac history_facts :=
  rewrite ?enqueued_app, ?starts_app, ?settled_app, ?in_flight_app, ?max_in_flight_app,
    ?current_app, ?serial_app;
  simpl.

(** The two facts of the invariant on the order of the runs. *)
Ltac order_facts Hcur :=
  try reflexivity;
  try match goal with
      | |- context [current _ _] => solve [rewrite ?Hcur; simpl; auto]
      | |- context [serial _ _] => solve [rewrite ?Hcur; simpl; auto]
      end.

Lemma invariant_queueFile (s : state W) (file : TFile) :
  invariant s -> invariant (queueFile settings s file).
Proof.
  intros [Hb Hp Hs Hbusy Hf Hc Hm Hj Hr Hst Hcur Hord].
  destruct s as [[c p q] act w hist]. simpl in *. subst c p.
  pose proof (no_throw_queueTask file) as Hnew.
  unfold queueFile, PQueue.add, PQueue.tryToStartAnother. simpl.
  destruct act as [|j [|j' act]]; simpl in *; [| |lia].
  - rewrite (Hbusy eq_refl) in *. simpl in *.
    split; simpl; auto; try discriminate; history_facts; order_facts Hcur.
    + rewrite Hf. by rewrite !app_nil_r.
    + by rewrite Hc.
    + rewrite Hc. lia.
    + by rewrite app_nil_r.
    + rewrite Hst. by rewrite !app_nil_r.
  - match goal with
    | |- context [match ?l with [] => ?x | _ => _ end] =>
        replace (match l with [] | _ => x end) with x by (by destruct l)
    end.
    split; simpl; auto; try discriminate; history_facts; order_facts Hcur.
    + rewrite Hf, map_app. simpl. by rewrite app_nil_r, app_assoc.
    + by rewrite Hc.
    + rewrite Hc. lia.
    + apply Forall_cons in Hj as [Hj1 Hj2]. constructor; [exact Hj1|].
      apply Forall_app. split; [exact Hj2 | by constructor].
    + by rewrite app_nil_r.
    + rewrite Hst. by rewrite !app_nil_r.
Qed.

Lemma invariant_settle (q : list job) (w : W) (hist : list event) (f : TFile) (r : unit) :
  invariant {| queue := {| PQueue.concurrency := 1; PQueue.pending := 1; PQueue.queue := q |};
               active := [(f, Ret r)]; wld := w; history := hist |} ->
  invariant
    (let '(q', j) := PQueue.next {| PQueue.concurrency := 1; PQueue.pending := 1; PQueue.queue := q |} in
     {| queue := q'; active := started j; wld := w;
        history := hist ++ Settled f (inr r) :: map (fun j => Started j.1) (started j) |}).
Proof.
  intros [Hb Hp Hs Hbusy Hf Hc Hm Hj Hr Hst Hcur Hord]. simpl in *.
  unfold PQueue.next, PQueue.tryToStartAnother. simpl.
  apply Forall_cons in Hj as [_ Hj]. destruct r.
  destruct q as [|j q]; simpl.
  - split; simpl; auto; history_facts; order_facts Hcur.
    + rewrite Hf. by rewrite !app_nil_r.
    + by rewrite Hc.
    + rewrite Hc. lia.
    + apply Forall_app. split; [exact Hr | by constructor].
    + rewrite Hst, map_app. simpl. by rewrite !app_nil_r.
  - split; simpl; auto; try discriminate; history_facts; order_facts Hcur.
    + rewrite Hf. simpl. by rewrite app_nil_r, <- app_assoc.
    + by rewrite Hc.
    + rewrite Hc. lia.
    + apply Forall_app. split; [exact Hr | by constructor].
    + by rewrite Hst, map_app.
Qed.

Lemma invariant_did (q : PQueue.t job) (f : TFile) (p p' : js unit) (w w' : W)
    (hist : list event) (e : entry) :
  no_throw p' ->
  invariant {| queue := q; active := [(f, p)]; wld := w; history := hist |} ->
  invariant {| queue := q; active := [(f, p')]; wld := w'; history := hist ++ [Did f e] |}.
Proof.
  intros Hp' [Hb Hp Hs Hbusy Hf Hc Hm Hj Hr Hst Hcur Hord]. simpl in *.
  split; simpl; auto; try discriminate; history_facts; order_facts Hcur.
  - rewrite Hf. by rewrite !app_nil_r.
  - by rewrite Hc.
  - rewrite Hc. lia.
  - apply Forall_cons in Hj as [_ Hj]. by constructor.
  - by rewrite app_nil_r.
  - rewrite Hst. by rewrite !app_nil_r.
Qed.

Lemma invariant_resume (s : state W) (i : nat) :
  invariant s -> invariant (resume h s i).
Proof.
  intros Hinv. pose proof Hinv as [Hb Hp Hs Hbusy Hf Hc Hm Hj Hr Hst Hcur Hord].
  destruct s as [[c p q] act w hist]. simpl in *. subst c p.
  unfold resume. simpl.
  destruct act as [|[f prog] [|j' act]]; simpl in *; [by destruct i | | lia].
  destruct i as [|i]; [|exact Hinv]. simpl.
  apply Forall_cons in Hj as [Hprog _]. simpl in Hprog.
  destruct prog as [r|e|X c k|X qy k|o k].
  - apply (invariant_settle q w hist f r), Hinv.
  - destruct (no_throw_inv _ Hprog).
  - destruct (settle h c w) as [r w'].
    apply (invariant_did _ f (Call c k) _ w); [|exact Hinv].
    apply (no_throw_inv _ Hprog).
  - destruct (answer h qy w) as [x w'].
    apply (invariant_did _ f (Ask qy k) _ w); [|exact Hinv].
    apply (no_throw_inv _ Hprog).
  - apply (invariant_did _ f (Emit o k) _ w); [|exact Hinv].
    apply (no_throw_inv _ Hprog).
Qed.

Lemma invariant_queueFiles (s : state W) (files : list TFile) :
  invariant s -> invariant (foldl (queueFile settings) s files).
Proof.
  revert s. induction files as [|f files IH]; intros s Hinv; simpl; [exact Hinv|].
  apply IH, invariant_queueFile, Hinv.
Qed.

Lemma invariant_step (s : state W) (a : action) :
  invariant s -> invariant (step h settings s a).
Proof.
  destruct a; simpl; auto using invariant_queueFiles, invariant_resume.
Qed.

Lemma invariant_exec (s : state W) (schedule : list action) :
  invariant s -> invariant (exec h settings s schedule).
Proof.
  revert s. induction schedule as [|a schedule IH]; intros s Hinv; simpl; [exact Hinv|].
  apply IH, invariant_step, Hinv.
Qed.

(** Only [queueFile] adds to the files enqueued. *)
Lemma enqueued_queueFile (s : state W) (file : TFile) :
  enqueued (history (queueFile settings s file)) = enqueued (history s) ++ [file].
Proof.
  unfold queueFile. destruct (PQueue.add _ _) as [q [j|]]; simpl.
  - rewrite enqueued_app. reflexivity.
  - rewrite enqueued_app. reflexivity.
Qed.

Lemma enqueued_queueFiles (s : state W) (files : list TFile) :
  enqueued (history (foldl (queueFile settings) s files)) = enqueued (history s) ++ files.
Proof.
  revert s. induction files as [|f files IH]; intros s; simpl; [by rewrite app_nil_r|].
  by rewrite IH, enqueued_queueFile, <- app_assoc.
Qed.

Lemma enqueued_resume (s : state W) (i : nat) :
  enqueued (history (resume h s i)) = enqueued (history s).
Proof.
  unfold resume. destruct (active s !! i) as [[f [r|e|X c k|X q k|o k]]|]; simpl; auto.
  - destruct (PQueue.next _) as [q [j|]]; simpl; rewrite enqueued_app; simpl; by rewrite app_nil_r.
  - destruct (PQueue.next _) as [q [j|]]; simpl; rewrite enqueued_app; simpl; by rewrite app_nil_r.
  - destruct (settle h c (wld s)) as [r w']. simpl. rewrite enqueued_app. simpl. by rewrite app_nil_r.
  - destruct (answer h q (wld s)) as [x w']. simpl. rewrite enqueued_app. simpl. by rewrite app_nil_r.
  - rewrite enqueued_app. simpl. by rewrite app_nil_r.
Qed.

Lemma enqueued_exec (s : state W) (schedule : list action) :
  enqueued (history (exec h settings s schedule)) = enqueued (history s) ++ arrivals settings schedule.
Proof.
  unfold exec. revert s. induction schedule as [|a schedule IH]; intros s; cbn [foldl].
  - by rewrite app_nil_r.
  - rewrite IH. unfold arrivals. cbn [map List.concat]. rewrite app_assoc. f_equal.
    destruct a; simpl.
    + apply enqueued_queueFiles.
    + apply enqueued_queueFiles.
    + rewrite app_nil_r. apply enqueued_resume.
Qed.

(** C4.  Whatever the schedule of startup scans, watcher events and steps
    of running jobs, the runs of the history do not overlap: a run starts
    only when none is in flight, every step belongs to the run in flight,
    and the counter of runs in flight never exceeds one.  The runs start in
    the order in which the files were handed to [queueFile], whether by the
    scan or by the watcher. *)
Theorem queue_serializes_fifo (w : W) (schedule : list action) :
  let s := exec h settings (init w) schedule in
  serial None (history s)
  /\ max_in_flight 0 (history s) <= 1
  /\ List.length (active s) <= 1
  /\ enqueued (history s) = arrivals settings schedule
  /\ starts (history s) `prefix_of` arrivals settings schedule.
Proof.
  intros s. pose proof (invariant_exec (init w) schedule (invariant_init w)) as Hinv.
  fold s in Hinv. destruct Hinv as [Hb Hp Hs Hbusy Hf Hc Hm Hj Hr Hst Hcur Hord].
  assert (He : enqueued (history s) = arrivals settings schedule).
  { unfold s. rewrite enqueued_exec. reflexivity. }
  repeat split; auto.
  rewrite <- He, Hf. by eexists.
Qed.

(** *** The queue runs every job to its end *)

Lemma exec_app (s : state W) (l l' : list action) :
  exec h settings s (l ++ l') = exec h settings (exec h settings s l) l'.
Proof. apply foldl_app. Qed.

Lemma exec_cons (s : state W) (a : action) (l : list action) :
  exec h settings s (a :: l) = exec h settings (step h settings s a) l.
Proof. reflexivity. Qed.

(** Resuming a job step by step goes through the log of its run. *)
Lemma resume_job (f : TFile) (p : js unit) (q : PQueue.t job) (w : W) (hist : list event) :
  exec h settings {| queue := q; active := [(f, p)]; wld := w; history := hist |}
    (replicate (List.length (trace_of (run h p w))) (Resume 0))
  = {| queue := q; active := [(f, terminal (result_of (run h p w)))];
       wld := world_of (run h p w);
       history := hist ++ map (Did f) (trace_of (run h p w)) |}.
Proof.
  revert w hist. induction p as [r|e|X c k IH|X qy k IH|o k IH]; intros w hist; cbn [run].
  - simpl. by rewrite app_nil_r.
  - simpl. by rewrite app_nil_r.
  - destruct (settle h c w) as [r w1] eqn:Ec. specialize (IH r w1 (hist ++ [Did f (Called c r)])).
    destruct (run h (k r) w1) as [[t res] w2]. unfold trace_of, result_of, world_of in *.
    cbn [fst snd List.length replicate map] in *. rewrite exec_cons.
    cbn [step]. unfold resume. cbn [active lookup list_lookup wld queue history].
    rewrite Ec. cbn [insert list_insert]. etrans; [exact IH|]. by rewrite <- app_assoc.
  - destruct (answer h qy w) as [x w1] eqn:Eq. specialize (IH x w1 (hist ++ [Did f (Asked qy x)])).
    destruct (run h (k x) w1) as [[t res] w2]. unfold trace_of, result_of, world_of in *.
    cbn [fst snd List.length replicate map] in *. rewrite exec_cons.
    cbn [step]. unfold resume. cbn [active lookup list_lookup wld queue history].
    rewrite Eq. cbn [insert list_insert]. etrans; [exact IH|]. by rewrite <- app_assoc.
  - specialize (IH w (hist ++ [Did f (Emitted o)])).
    destruct (run h k w) as [[t res] w2]. unfold trace_of, result_of, world_of in *.
    cbn [fst snd List.length replicate map] in *. rewrite exec_cons.
    cbn [step]. unfold resume. cbn [active lookup list_lookup wld queue history].
    cbn [insert list_insert]. etrans; [exact IH|]. by rewrite <- app_assoc.
Qed.

(** A job that has returned or thrown settles, and the job at the head of
    the queue starts. *)
Lemma resume_terminal (f : TFile) (res : exn + unit) (q : list job) (w : W) (hist : list event) :
  resume h {| queue := {| PQueue.concurrency := 1; PQueue.pending := 1; PQueue.queue := q |};
              active := [(f, terminal res)]; wld := w; history := hist |} 0
  = match q with
    | [] => {| queue := {| PQueue.concurrency := 1; PQueue.pending := 0; PQueue.queue := [] |};
               active := []; wld := w; history := hist ++ [Settled f res] |}
    | j :: rest =>
        {| queue := {| PQueue.concurrency := 1; PQueue.pending := 1; PQueue.queue := rest |};
           active := [j]; wld := w; history := hist ++ [Settled f res; Started j.1] |}
    end.
Proof. destruct res, q; reflexivity. Qed.

(** With one job in flight, resuming long enough runs it and every job
    that waits, in order, whatever the outcome of each; the queue is then
    empty and idle. *)
Lemma drain_busy (q : list job) (f : TFile) (p : js unit) (w : W) (hist : list event) :
  exists n,
    exec h settings
      {| queue := {| PQueue.concurrency := 1; PQueue.pending := 1; PQueue.queue := q |};
         active := [(f, p)]; wld := w; history := hist |}
      (replicate n (Resume 0))
    = {| queue := {| PQueue.concurrency := 1; PQueue.pending := 0; PQueue.queue := [] |};
         active := [];
         wld := (sequential h ((f, p) :: q) w).2;
         history := hist ++ (sequential h ((f, p) :: q) w).1 |}.
Proof.
  revert f p w hist. induction q as [|[f' p'] q IH]; intros f p w hist.
  - exists (List.length (trace_of (run h p w)) + 1).
    rewrite replicate_add, exec_app, resume_job. cbn [replicate]. rewrite exec_cons.
    cbn [step]. rewrite resume_terminal. cbn [sequential].
    destruct (run h p w) as [[t res] w1]. unfold trace_of, result_of, world_of. simpl.
    f_equal. by rewrite <- app_assoc.
  - destruct (IH f' p' (world_of (run h p w))
                ((hist ++ map (Did f) (trace_of (run h p w)))
                      ++ [Settled f (result_of (run h p w)); Started f'])) as [n Hn].
    exists (List.length (trace_of (run h p w)) + (1 + n)).
    rewrite replicate_add, exec_app, resume_job, replicate_add, exec_app.
    cbn [replicate Nat.add]. rewrite exec_cons. cbn [step exec foldl].
    rewrite resume_terminal. etrans; [exact Hn|]. cbn [sequential].
    destruct (run h p w) as [[t res] w1]. unfold trace_of, result_of, world_of. simpl.
    destruct (run h p' w1) as [[t' res'] w2]. destruct (sequential h q w2) as [l w3]. simpl.
    f_equal. rewrite <- !app_assoc. reflexivity.
Qed.

Lemma arrivals_resume (n i : nat) : arrivals settings (replicate n (Resume i)) = [].
Proof. induction n as [|n IH]; [reflexivity | exact IH]. Qed.

Lemma arrivals_app (l l' : list action) :
  arrivals settings (l ++ l') = arrivals settings l ++ arrivals settings l'.
Proof. unfold arrivals. by rewrite map_app, concat_app. Qed.

Lemma settled_all_returned (l : list (TFile * (exn + unit))) :
  Forall (fun x => x.2 = inr tt) l -> l = map (fun f => (f, inr tt)) (map fst l).
Proof.
  induction 1 as [|[f r] l Hr _ IH]; simpl in *; [reflexivity|]. by rewrite Hr, <- IH.
Qed.

(** From any state that the plugin can reach, resuming long enough runs
    the job in flight and every job that waits, one after the other, to
    their end; by then every file handed to the queue had its run started,
    in order, and every run returned. *)
Lemma queue_drains (w : W) (schedule : list action) :
  let s := exec h settings (init w) schedule in
  exists n,
    let s' := exec h settings s (replicate n (Resume 0)) in
    active s' = []
    /\ PQueue.queue (queue s') = []
    /\ history s' = history s ++ (sequential h (active s ++ PQueue.queue (queue s)) (wld s)).1
    /\ starts (history s') = arrivals settings schedule
    /\ settled (history s') = map (fun f => (f, inr tt)) (arrivals settings schedule).
Proof.
  intros s.
  pose proof (invariant_exec (init w) schedule (invariant_init w)) as Hinv. fold s in Hinv.
  assert (Hdrain : exists n,
    let s' := exec h settings s (replicate n (Resume 0)) in
    active s' = [] /\ PQueue.queue (queue s') = []
    /\ history s' = history s ++ (sequential h (active s ++ PQueue.queue (queue s)) (wld s)).1).
  { destruct Hinv as [Hb Hp Hs Hbusy Hf Hc Hm Hj Hr Hst Hcur Hord].
    destruct s as [[c p q] act w0 hist].
    cbn [queue active wld history PQueue.concurrency PQueue.pending PQueue.queue] in *.
    subst c p.
    destruct act as [|[f prog] [|j' act]]; cbn [List.length] in *; [| |lia].
    - exists 0. rewrite (Hbusy eq_refl). simpl. by rewrite app_nil_r.
    - destruct (drain_busy q f prog w0 hist) as [n Hn]. exists n. cbv zeta.
      match goal with
      | |- active ?x = _ /\ _ => replace x with
          {| queue := {| PQueue.concurrency := 1; PQueue.pending := 0; PQueue.queue := [] |};
             active := []; wld := (sequential h ((f, prog) :: q) w0).2;
             history := hist ++ (sequential h ((f, prog) :: q) w0).1 |}
          by (symmetry; exact Hn)
      end.
      auto. }
  destruct Hdrain as (n & Ha & Hq & Hh). exists n. intros s'.
  pose proof (invariant_exec s (replicate n (Resume 0)) Hinv) as Hinv'. fold s' in Hinv'.
  destruct Hinv' as [Hb Hp Hs Hbusy Hf Hc Hm Hj Hr Hst Hcur Hord].
  subst s'. rewrite Ha, Hq in *. simpl in *. rewrite app_nil_r in *.
  assert (He : enqueued (history (exec h settings s (replicate n (Resume 0))))
               = arrivals settings schedule).
  { unfold s. rewrite <- exec_app, enqueued_exec, arrivals_app, arrivals_resume.
    simpl. by rewrite app_nil_r. }
  repeat split; auto.
  - by rewrite <- Hf.
  - rewrite (settled_all_returned _ Hr). by rewrite <- Hst, <- Hf, He.
Qed.

End Queue.

(** ** The claims that span several parts *)

(** C5.  The function that [queueFile] queues never throws: whatever the
    host does, it returns, and when the pipeline fails its log ends with
    the notice "Failed to process" that carries the path of the file and
    with the error on the console.  From any state that the plugin can
    reach, the queue then runs the job in flight and every waiting job to
    their end, one after the other: every file handed to the queue has its
    run started and every run returns.  On the reference vault, a recording
    whose transcription fails is followed by one that is transcribed,
    written and moved. *)
Theorem failure_stays_in_task `{Moment} {W : Type} (h : host W) (settings : VoiceNotesSettings) :
  (forall (file : TFile) (w : W),
     let p := run h (Processor.processAudioFile settings file) w in
     let r := run h (Processor.queueTask settings file) w in
     result_of r = inr tt
     /\ world_of r = world_of p
     /\ trace_of r =
        (Emitted (Notice ("Processing audio file: " ++ path file)) :: trace_of p ++
         match result_of p with
         | inr _ => [Emitted (Notice ("Transcribed: " ++ path file))]
         | inl e => [Emitted (Notice ("Failed to process: " ++ path file));
                     Emitted (ConsoleError e)]
         end)%list)
  /\ (forall (w : W) (schedule : list Plugin.action),
       let s := Plugin.exec h settings (Plugin.init w) schedule in
       exists n,
         let s' := Plugin.exec h settings s (replicate n (Plugin.Resume 0)) in
         Plugin.active s' = []
         /\ PQueue.queue (Plugin.queue s') = []
         /\ Plugin.history s' =
            (Plugin.history s ++
             (History.sequential h (Plugin.active s ++ PQueue.queue (Plugin.queue s))
                (Plugin.wld s)).1)%list
         /\ Plugin.starts (Plugin.history s') = History.arrivals settings schedule
         /\ History.settled (Plugin.history s')
            = map (fun f => (f, inr tt)) (History.arrivals settings schedule))
  /\ (let s := @Plugin.exec UtcMoment.utc _ Vault.host DEFAULT_SETTINGS (Plugin.init Sample.flaky)
                 (Plugin.StartupScan [Sample.rec1; Sample.rec2]
                    :: replicate 20 (Plugin.Resume 0)) in
      notices (History.log_of Sample.rec1 (Plugin.history s))
      = ["Processing audio file: voice-notes/memo.m4a";
         "Failed to process: voice-notes/memo.m4a"]
      /\ notices (History.log_of Sample.rec2 (Plugin.history s))
         = ["Processing audio file: voice-notes/idea.mp3";
            "Transcribed: voice-notes/idea.mp3"]
      /\ Vault.files (Plugin.wld s) !! "voice-notes/memo.m4a"
         = Some (Vault.NFile 1714554000000 [])
      /\ Vault.files (Plugin.wld s) !! "voice-notes-processed/2024-05-01 at 10.00.mp3"
         = Some (Vault.NFile 1714557600000 [])
      /\ is_Some (Vault.files (Plugin.wld s) !! "voice-notes-output/2024-05-01 at 10.00.md")).
Proof.
  split; [|split].
  - intros file w. apply queueTask_trace.
  - intros w schedule. apply queue_drains.
  - vm_compute. repeat split. eexists. reflexivity.
Qed.



(** C8 fails as stated: a headline with a double quote in it is written
    as it is, and the [summary] field is then no well-formed double-quoted
    scalar. *)
Lemma headline_quote_breaks_summary_field :
  let note := @Processor.formatToMarkdown UtcMoment.utc
    {| Processor.content := "- ring him"; Processor.transcript := "I should call Bob back";
       Processor.audioFileName := "2024-05-01 at 09.00.m4a";
       Processor.summary := Sample.quoted_headline; Processor.file := Sample.rec1 |} in
  In DQUOTE (list_ascii_of_string Sample.quoted_headline)
  /\ FrontMatter.field "summary" note = Some (dq ++ Sample.quoted_headline ++ dq)
  /\ FrontMatter.well_quoted (dq ++ Sample.quoted_headline ++ dq) = false.
Proof. vm_compute. repeat split. auto 10. Qed.

(** No line break among the characters of a string that is written out. *)
Ltac no_such_char :=
  simpl; intros Hin; repeat (destruct Hin as [Hin|Hin]; [discriminate Hin|]); exact Hin.

Lemma summary_field_verbatim_witness :
  let a := {| Processor.content := "- said hello"; Processor.transcript := "Hello world";
              Processor.audioFileName := "2024-05-01 at 09.00.m4a";
              Processor.summary := "Quick note"; Processor.file := Sample.rec1 |} in
  FrontMatter.field "summary" (@Processor.formatToMarkdown UtcMoment.utc a)
  = Some (dq ++ "Quick note" ++ dq)
  /\ (~ In BACKSLASH (list_ascii_of_string "Quick note") ->
      FrontMatter.well_quoted (dq ++ "Quick note" ++ dq) = true
      <-> ~ In DQUOTE (list_ascii_of_string "Quick note")).
Proof.
  intros a. apply (@summary_field_verbatim UtcMoment.utc a); no_such_char.
Defined.

(** C10.  With the default settings, an [mp3] or [m4a] file anywhere under
    the processed directory passes [shouldProcessFile], since the name of
    the processed directory contains the name of the watch directory; the
    startup scan and the watcher therefore both call [queueFile] on it.
    Every path to which a run moves its source lies under the processed
    directory. *)
Theorem archived_file_is_candidate `{Moment} (f : TFile) (rest : string) :
  path f = processedDirectory DEFAULT_SETTINGS ++ "/" ++ rest ->
  extension f = "mp3" \/ extension f = "m4a" ->
  shouldProcessFile DEFAULT_SETTINGS (AFile f) = true
  /\ queueFromWatcher DEFAULT_SETTINGS (AFile f) = [f]
  /\ (forall files, f ∈ files -> f ∈ queueUnprocessedFiles DEFAULT_SETTINGS files)
  /\ (forall (W : Type) (h : host W) (w : W) (source : TFile) (a : TAbstractFile)
             (target : string) (moved : bool),
        (a, target, moved)
          ∈ renames (trace_of (run h (Processor.processAudioFile DEFAULT_SETTINGS source) w)) ->
        a = AFile source
        /\ exists rest', target = processedDirectory DEFAULT_SETTINGS ++ "/" ++ rest').
Proof.
  intros Hp He.
  assert (Hs : shouldProcessFile DEFAULT_SETTINGS (AFile f) = true).
  { apply shouldProcessFile_true_iff. exists f. repeat split; [exact He|].
    exists "", ("-processed/" ++ rest). rewrite Hp. reflexivity. }
  split; [exact Hs|]. split; [|split].
  - unfold queueFromWatcher. by rewrite Hs.
  - intros files Hin. unfold queueUnprocessedFiles. apply list_elem_of_filter. auto.
  - intros W h w source a target moved Hin.
    pose proof (rename_follows_note DEFAULT_SETTINGS h source w) as Hrel. cbv zeta in Hrel.
    destruct (notes_written _); [rewrite Hrel in Hin; by apply elem_of_nil in Hin|].
    destruct Hrel as (target' & moved' & Hren & Hpre). rewrite Hren in Hin.
    apply list_elem_of_singleton in Hin. injection Hin as -> -> ->. split; [reflexivity|].
    apply prefix_true_iff in Hpre as [post ->]. exists post. apply append_assoc.
Qed.

Lemma archived_file_is_candidate_witness :
  let f := {| path := "voice-notes-processed/2024-05-01 at 09.00.m4a";
              name := "2024-05-01 at 09.00.m4a"; extension := "m4a";
              stat := {| mtime := 1714554000000 |} |} in
  shouldProcessFile DEFAULT_SETTINGS (AFile f) = true
  /\ queueFromWatcher DEFAULT_SETTINGS (AFile f) = [f].
Proof.
  intros f.
  destruct (@archived_file_is_candidate UtcMoment.utc f "2024-05-01 at 09.00.m4a")
    as (H1 & H2 & _); [reflexivity | by right | by split].
Defined.


(** ** Scenarios on the reference vault *)

Section Scenarios.
Import Sample.
Local Open Scope list_scope.

#[local] Existing Instance UtcMoment.utc.

(** Scenario 1 of the spec: the note and the move of a first recording. *)
Example scenario_note_and_move :
  let r := run Vault.host (Processor.processAudioFile DEFAULT_SETTINGS rec1) fresh in
  result_of r = inr tt
  /\ map fst (notes_written (trace_of r)) = ["voice-notes-output/2024-05-01 at 09.00.md"]
  /\ renames (trace_of r) = [(AFile rec1, "voice-notes-processed/2024-05-01 at 09.00.m4a", true)]
  /\ Vault.files (world_of r) !! "voice-notes/memo.m4a" = None
  /\ Vault.files (world_of r) !! "voice-notes-processed/2024-05-01 at 09.00.m4a"
     = Some (Vault.NFile 1714554000000 []).
Proof. vm_compute. repeat split. Qed.

(** Scenario 2 of the spec: both paths are taken, both get a suffix. *)
Example scenario_collision :
  let r := run Vault.host (Processor.processAudioFile DEFAULT_SETTINGS rec1) occupied in
  result_of r = inr tt
  /\ draws (trace_of r) = [417%N; 52%N]
  /\ map fst (notes_written (trace_of r)) = ["voice-notes-output/2024-05-01 at 09.00_417.md"]
  /\ renames (trace_of r)
     = [(AFile rec1, "voice-notes-processed/2024-05-01 at 09.00_52.m4a", true)]
  /\ Vault.files (world_of r) !! "voice-notes-output/2024-05-01 at 09.00.md"
     = Some (Vault.NFile 0 []).
Proof. vm_compute. repeat split. Qed.

End Scenarios.

(* ================================================================== *)
(** * Further properties of the code                                   *)
(* ================================================================== *)

(** ** Settings *)

Section SettingsFacts.
Import Settings.

Lemma loadSettings_union (stored : option (gmap string string)) :
  loadSettings stored = match stored with
                        | Some o => o ∪ DEFAULT_SETTINGS_object
                        | None => DEFAULT_SETTINGS_object
                        end.
Proof.
  unfold loadSettings, Object_assign. simpl. rewrite (right_id_L ∅ (∪)).
  by destruct stored.
Qed.

(** X1.  [loadSettings] gives every key the value that was stored for it,
    and the default value when nothing was stored for it, also when no
    data was stored at all; a stored key that is no setting is kept. *)
Theorem loadSettings_lookup (stored : option (gmap string string)) (k : string) :
  loadSettings stored !! k =
  match stored ≫= (fun o => o !! k) with
  | Some v => Some v
  | None => DEFAULT_SETTINGS_object !! k
  end.
Proof.
  rewrite loadSettings_union. destruct stored as [o|]; simpl; [|reflexivity].
  rewrite lookup_union. by destruct (o !! k), (DEFAULT_SETTINGS_object !! k).
Qed.

Lemma session_snoc (stored : option (gmap string string)) (changes : list (control * string))
    (c : control) (v : string) :
  session stored (changes ++ [(c, v)]) = onChange c v (session stored changes).
Proof. unfold session. by rewrite foldl_app. Qed.

(** What a session keeps: the client key is the one read at [onload];
    and either nothing was changed, or the stored data are the settings
    and hold every default key. *)
Lemma session_invariant (stored : option (gmap string string)) (changes : list (control * string)) :
  let p := session stored changes in
  client_key p = loadSettings stored !! "openAIAPIKey"
  /\ (data p = stored /\ settings p = loadSettings stored
      \/ data p = Some (settings p)
         /\ forall k, is_Some (DEFAULT_SETTINGS_object !! k) -> is_Some (settings p !! k)).
Proof.
  induction changes as [|[c v] changes IH] using rev_ind.
  - simpl. auto.
  - rewrite session_snoc. destruct IH as [Hkey Hrest]. split; [exact Hkey|]. right.
    split; [reflexivity|]. intros k Hk. simpl.
    destruct (decide (key_of c = k)) as [<-|Hne].
    + rewrite lookup_insert_eq. eauto.
    + rewrite lookup_insert_ne by exact Hne.
      destruct Hrest as [[_ ->] | [_ Hall]]; [|by apply Hall].
      rewrite loadSettings_lookup. destruct (stored ≫= _); [eauto | exact Hk].
Qed.

(** X2.  Whatever was stored and whatever is changed in the settings tab,
    loading again gives the settings as the session left them: every
    change is saved, and what is saved holds all the keys. *)
Theorem reload_keeps_settings (stored : option (gmap string string))
    (changes : list (control * string)) :
  settings (onload (data (session stored changes))) = settings (session stored changes).
Proof.
  destruct (session_invariant stored changes) as [_ [[-> ->] | [-> Hall]]]; [reflexivity|].
  simpl. rewrite loadSettings_union. apply map_eq. intros k. rewrite lookup_union.
  destruct (settings (session stored changes) !! k) as [v|] eqn:Ek.
  - by destruct (DEFAULT_SETTINGS_object !! k).
  - destruct (DEFAULT_SETTINGS_object !! k) as [d|] eqn:Ed; [|reflexivity].
    destruct (Hall k) as [v Hv]; [by rewrite Ed | congruence].
Qed.

(** X3.  A key typed into the settings tab is written to the settings and
    saved, but the OpenAI client keeps the key it was built with at
    [onload]; the new key is the client's only after the next [onload]. *)
Theorem api_key_change_needs_reload (stored : option (gmap string string))
    (changes : list (control * string)) (key : string) :
  let p := onChange OpenAIAPIKey key (session stored changes) in
  client_key p = loadSettings stored !! "openAIAPIKey"
  /\ openAIAPIKey (to_record (settings p)) = key
  /\ client_key (onload (data p)) = Some key.
Proof.
  destruct (session_invariant stored changes) as [Hkey _]. simpl.
  split; [exact Hkey|]. unfold to_record. simpl. rewrite lookup_insert_eq. split; [reflexivity|].
  rewrite loadSettings_lookup. simpl. by rewrite lookup_insert_eq.
Qed.

End SettingsFacts.

(** ** Trimming *)

Section TrimFacts.

Lemma trim_start_spec (s : string) :
  exists pre, s = pre ++ trim_start s /\ all_white pre /\ starts_white (trim_start s) = false.
Proof.
  induction s as [|c s (pre & E & Hpre & Hs)].
  - exists "". repeat split. constructor.
  - cbn [trim_start]. destruct (is_white_space c) eqn:Ec.
    + exists (String c pre). split; [simpl; by rewrite <- E|]. split; [by constructor|exact Hs].
    + exists "". split; [reflexivity|]. split; [constructor | exact Ec].
Qed.

Lemma trim_end_spec (s : string) :
  exists post, s = trim_end s ++ post /\ all_white post /\ ends_white (trim_end s) = false.
Proof.
  induction s as [|c s (post & E & Hpost & Hs)].
  - exists "". repeat split. constructor.
  - cbn [trim_end]. destruct (trim_end s) as [|d t] eqn:Et.
    + simpl in E. subst s. destruct (is_white_space c) eqn:Ec.
      * exists (String c post). split; [reflexivity|]. split; [by constructor | reflexivity].
      * exists post. split; [reflexivity|]. split; [exact Hpost | exact Ec].
    + exists post. split; [simpl; by rewrite E|]. split; [exact Hpost | exact Hs].
Qed.

Lemma trim_end_starts (s : string) : starts_white s = false -> starts_white (trim_end s) = false.
Proof.
  destruct s as [|c s]; [reflexivity|]. cbn [trim_end starts_white]. intros Hc.
  destruct (trim_end s); [by rewrite Hc | exact Hc].
Qed.

(** [trim] takes white space away at both ends and nothing else. *)
Lemma trim_spec (s : string) :
  exists pre post,
    s = pre ++ trim s ++ post /\ all_white pre /\ all_white post
    /\ starts_white (trim s) = false /\ ends_white (trim s) = false.
Proof.
  unfold trim. destruct (trim_start_spec s) as (pre & E & Hpre & Hs).
  destruct (trim_end_spec (trim_start s)) as (post & E' & Hpost & He).
  exists pre, post. split; [by rewrite <- E', <- E|]. repeat split; auto using trim_end_starts.
Qed.

End TrimFacts.

(** ** The front matter of a note, read back *)

Section FrontMatterFacts.
Context `{Moment}.
Import FrontMatter.

(** Reading a field that stands on the first line of the block. *)
Lemma field_first_line (key l1 v rest : string) :
  ~ In LF (list_ascii_of_string l1) ->
  String.eqb l1 "---" = false ->
  strip_prefix (key ++ ": ") l1 = Some v ->
  field key ("---" ++ nl ++ l1 ++ nl ++ rest) = Some v.
Proof.
  intros H1 E1 S1. unfold field, nl.
  rewrite (split_line LF "---") by apply no_LF_dashes.
  rewrite (split_line LF l1) by exact H1.
  cbn [lookup_field]. by rewrite String.eqb_refl, E1, S1.
Qed.

Lemma source_field (a : Processor.MarkdownArgs) :
  ~ In LF (list_ascii_of_string (Processor.audioFileName a)) ->
  field "source" (Processor.formatToMarkdown a)
  = Some (dq ++ "[[" ++ Processor.audioFileName a ++ "]]" ++ dq).
Proof.
  intros Ha. destruct (formatToMarkdown_lines a) as [rest ->].
  apply field_first_line; try reflexivity.
  rewrite !In_append. simpl.
  intros [[E|[E|[E|[E|[E|[E|[E|[E|[]]]]]]]]]|[[E|[]]|[[E|[E|[]]]|[?|[[E|[E|[]]]|[E|[]]]]]]];
    try discriminate E; auto.
Qed.

End FrontMatterFacts.

(** ** The pipeline, call by call *)

Ltac unfold_run :=
  unfold Processor.queueTask, Processor.processAudioFile, Processor.transcribeAudio,
    Processor.enhanceTranscript, Processor.first_choice_content.

Ltac unfold_legacy_run :=
  unfold LegacyProcessor.queueTask, LegacyProcessor.processAudioFile,
    LegacyProcessor.transcribeAudio, LegacyProcessor.enhanceTranscript,
    Processor.first_choice_content.

(** Membership of an entry in a log that is written out. *)
Ltac in_log := repeat first [ apply list_elem_of_here | apply list_elem_of_further ].

Section PipelineCalls.
Context `{Moment} {W : Type} (h : host W) (settings : VoiceNotesSettings).

Local Arguments Processor.formatToMarkdown : simpl never.
Local Arguments Processor.system_prompt : simpl never.
Local Arguments Processor.user_prompt : simpl never.
Local Arguments Processor.baseFileName : simpl never.
Local Arguments String.append : simpl never.



(** X6.  The note is written before the archive name is settled, and it
    links to the recording under the desired archive name: the [source]
    field of its front matter is the wiki link to the base name and the
    extension.  When that name is taken in the processed directory, the
    recording is moved to another path, and the link is not the name it
    was moved to. *)
Theorem source_link_keeps_desired_name (file : TFile) (w : W) :
  ~ In LF (list_ascii_of_string (Processor.baseFileName file)) ->
  ~ In LF (list_ascii_of_string (extension file)) ->
  let t := trace_of (run h (Processor.processAudioFile settings file) w) in
  let linked := Processor.baseFileName file ++ "." ++ extension file in
  Forall (fun c : string * string * bool =>
            FrontMatter.field "source" c.1.2 = Some (dq ++ "[[" ++ linked ++ "]]" ++ dq))
         (creates t)
  /\ Forall (fun r : TAbstractFile * string * bool =>
              exists_checks t !! 1%nat = Some (processedDirectory settings ++ "/" ++ linked, true) ->
              r.1.2 <> processedDirectory settings ++ "/" ++ linked)
            (renames t).
Proof.
  intros Hb He.
  assert (Hl : ~ In LF (list_ascii_of_string
                          (Processor.baseFileName file ++ "." ++ extension file))).
  { rewrite !In_append. simpl. intros [?|[[E|[]]|?]]; try discriminate E; auto. }
  unfold_run. js_exec h.
  all: split.
  all: try (by constructor).
  all: constructor; [|by constructor].
  all: try (by apply (source_field (Processor.Build_MarkdownArgs _ _ _ _ _))).
  all: cbn [fst snd]; intros Hc.
  all: try discriminate Hc.
  all: intros E; do 3 apply append_cancel_l in E; discriminate E.
Qed.

(** X7.  The body that [enhanceTranscript] returns neither starts nor
    ends with white space, and nothing but white space is lost: the content
    of the response is the headline alone, or the headline, a line break,
    and the body with white space before and after it. *)
Theorem summary_body_is_trimmed (transcript : string) (w : W) :
  let r := run h (Processor.enhanceTranscript transcript) w in
  match result_of r with
  | inl _ => True
  | inr (headline, body) =>
      starts_white body = false /\ ends_white body = false
      /\ exists req response content pre post,
           trace_of r = [Called (ChatCompletionsCreate req) (inr response)]
           /\ response_content response = Some content
           /\ all_white pre /\ all_white post
           /\ (content = headline /\ body = ""
               \/ content = headline ++ nl ++ pre ++ body ++ post)
  end.
Proof.
  unfold Processor.enhanceTranscript, Processor.first_choice_content. js_exec h.
  all: try exact I.
  match goal with
  | Hc : choices ?r = ?c :: _, Hf : falsy (message_content ?c) = false |- _ =>
      destruct (message_content c) as [txt|] eqn:Et; [|discriminate];
      destruct (split_first LF txt) as (hl & tl & E & Hl & Hs);
      unfold default, id; rewrite E; cbn [first hd slice1 drop];
      destruct (trim_spec (join nl tl)) as (pre & post & Ej & Hpre & Hpost & Hsw & Hew)
  end.
  split; [exact Hsw|]. split; [exact Hew|].
  eexists _, _, txt, pre, post. split; [reflexivity|].
  split; [unfold response_content; by match goal with E : choices _ = _ |- _ => rewrite E end|].
  split; [exact Hpre|]. split; [exact Hpost|].
  destruct Hs as [[-> ->] | [Hne ->]]; [left; by split | right].
  do 2 f_equal. exact Ej.
Qed.

(** X8.  The older [enhanceTranscript] loses nothing of the response: the
    content is the headline alone, with an empty body, or the headline, a
    line break, and the body. *)
Theorem legacy_summary_is_lossless (transcript : string) (w : W) :
  let r := run h (LegacyProcessor.enhanceTranscript transcript) w in
  match result_of r with
  | inl _ => True
  | inr (headline, body) =>
      ~ In LF (list_ascii_of_string headline)
      /\ exists req response content,
           trace_of r = [Called (ChatCompletionsCreate req) (inr response)]
           /\ response_content response = Some content
           /\ (content = headline /\ body = "" \/ content = headline ++ nl ++ body)
  end.
Proof.
  unfold LegacyProcessor.enhanceTranscript, Processor.first_choice_content. js_exec h.
  all: try exact I.
  match goal with
  | Hc : choices ?r = ?c :: _, Hf : falsy (message_content ?c) = false |- _ =>
      destruct (message_content c) as [txt|] eqn:Et; [|discriminate];
      destruct (split_first LF txt) as (hl & tl & E & Hl & Hs);
      unfold default, id; rewrite E; cbn [first hd slice1 drop]
  end.
  split; [exact Hl|].
  eexists _, _, txt. split; [reflexivity|].
  split; [unfold response_content; by match goal with E : choices _ = _ |- _ => rewrite E end|].
  destruct Hs as [[-> ->] | [Hne ->]]; [left; by split | right; reflexivity].
Qed.

(** X9.  The older [processAudioFile] never looks a path up and never
    draws a suffix: its note always goes to the output directory under the
    base name, and its recording to the processed directory under the base
    name and the extension.  Its calls come in the same order, each at
    most once, and it touches the processed folder only after the note was
    written. *)
Theorem legacy_paths_are_fixed (file : TFile) (w : W) :
  let t := trace_of (run h (LegacyProcessor.processAudioFile settings file) w) in
  exists_checks t = [] /\ draws t = []
  /\ Forall (fun c : string * string * bool =>
               c.1.1 = outputDirectory settings ++ "/" ++ Processor.baseFileName file ++ ".md")
            (creates t)
  /\ Forall (fun r : TAbstractFile * string * bool =>
               r.1.1 = AFile file
               /\ r.1.2 = processedDirectory settings ++ "/" ++ Processor.baseFileName file
                            ++ "." ++ extension file)
            (renames t)
  /\ stages t `prefix_of` [0; 1; 2; 3; 4]
  /\ (notes_written t = [] -> folder_calls t = []).
Proof.
  unfold_legacy_run. js_exec h.
  all: repeat split; try (by repeat constructor); try (by eexists); try discriminate.
Qed.

Lemma run_outcome (file : TFile) (w : W) :
  let p := run h (Processor.processAudioFile settings file) w in
  notices (trace_of p) = []
  /\ existsb (fun r : TAbstractFile * string * bool => r.2) (renames (trace_of p))
     = succeeded (result_of p).
Proof. unfold_run. js_exec h. all: by split. Qed.

Lemma legacy_run_outcome (file : TFile) (w : W) :
  let p := run h (LegacyProcessor.processAudioFile settings file) w in
  notices (trace_of p) = []
  /\ existsb (fun r : TAbstractFile * string * bool => r.2) (renames (trace_of p))
     = succeeded (result_of p).
Proof. unfold_legacy_run. js_exec h. all: by split. Qed.

(** X16.  The function that [queueFile] queues shows two notices, whatever
    the host answers: that processing began, and then the outcome, which
    is [Transcribed] exactly when the move of the recording succeeded.  A
    run whose note was written and whose move failed is reported as
    failed. *)
Theorem notices_report_the_move (file : TFile) (w : W) :
  let t := trace_of (run h (Processor.queueTask settings file) w) in
  notices t
  = [ "Processing audio file: " ++ path file;
      (if existsb (fun r : TAbstractFile * string * bool => r.2) (renames t)
       then "Transcribed: " else "Failed to process: ") ++ path file ].
Proof.
  destruct (queueTask_trace h settings file w) as (_ & _ & Ht).
  destruct (run_outcome file w) as [Hn Hr].
  cbn zeta. rewrite Ht. clear Ht.
  destruct (run h (Processor.processAudioFile settings file) w) as [[t r] w1].
  unfold trace_of, result_of in *. cbn [fst snd] in *.
  unfold notices, renames in *. cbn [omap list_omap notice_of rename_of].
  rewrite !omap_app, Hn.
  destruct r as [e|[]]; cbn in Hr |- *; rewrite app_nil_r, Hr; reflexivity.
Qed.

(** X17.  In the older revision the function that is queued shows the
    outcome only, by the same rule: the notice that processing began is
    shown by [queueFile] itself when the file is queued, not when its run
    starts. *)
Theorem legacy_task_reports_the_move (file : TFile) (w : W) :
  let t := trace_of (run h (LegacyProcessor.queueTask settings file) w) in
  notices t
  = [ (if existsb (fun r : TAbstractFile * string * bool => r.2) (renames t)
       then "Transcribed: " else "Failed to process: ") ++ path file ].
Proof.
  destruct (legacy_run_outcome file w) as [Hn Hr].
  unfold LegacyProcessor.queueTask, mbind, js_bind, emit.
  rewrite run_try_catch, run_bind.
  destruct (run h (LegacyProcessor.processAudioFile settings file) w) as [[t r] w1].
  unfold trace_of, result_of in *. cbn [fst snd] in *.
  destruct r as [e|[]]; cbn [run bind fst snd]; unfold notices, renames in *.
  all: rewrite !omap_app, Hn; cbn in Hr |- *; rewrite app_nil_r, Hr; reflexivity.
Qed.

End PipelineCalls.

Lemma source_link_keeps_desired_name_witness :
  let t := trace_of (run Vault.host
                       (@Processor.processAudioFile UtcMoment.utc DEFAULT_SETTINGS Sample.rec1)
                       Sample.occupied) in
  let linked := @Processor.baseFileName UtcMoment.utc Sample.rec1 ++ "." ++ extension Sample.rec1 in
  Forall (fun c : string * string * bool =>
            FrontMatter.field "source" c.1.2 = Some (dq ++ "[[" ++ linked ++ "]]" ++ dq))
         (creates t)
  /\ Forall (fun r : TAbstractFile * string * bool =>
              exists_checks t !! 1%nat
              = Some (processedDirectory DEFAULT_SETTINGS ++ "/" ++ linked, true) ->
              r.1.2 <> processedDirectory DEFAULT_SETTINGS ++ "/" ++ linked)
            (renames t).
Proof.
  apply (@source_link_keeps_desired_name UtcMoment.utc _ Vault.host DEFAULT_SETTINGS
           Sample.rec1 Sample.occupied).
  - vm_compute. intros Hin.
    repeat (destruct Hin as [Hin|Hin]; [discriminate Hin|]). exact Hin.
  - vm_compute. intros Hin.
    repeat (destruct Hin as [Hin|Hin]; [discriminate Hin|]). exact Hin.
Defined.

(** ** The candidate filter and the names of the directories *)

Section FilterFacts.

Lemma includes_empty_sub (s : string) : includes s "" = true.
Proof. apply includes_true_iff. by exists "", s. Qed.

(** X10.  With an empty watch directory every [mp3] and [m4a] file of the
    vault is a candidate, wherever it lies, also in the processed
    directory; folders and other files are still refused. *)
Theorem empty_watch_directory_accepts_all (settings : VoiceNotesSettings)
    (file : TAbstractFile) :
  watchDirectory settings = "" ->
  shouldProcessFile settings file = match file with
                                    | AFile f => isAudioFile f
                                    | AFolder _ => false
                                    end.
Proof.
  intros E. unfold shouldProcessFile. rewrite E, includes_empty_sub. by destruct file.
Qed.

Lemma empty_watch_directory_accepts_all_witness :
  shouldProcessFile {| openAIAPIKey := "sk"; watchDirectory := "";
                       processedDirectory := "done"; outputDirectory := "notes" |}
                    (AFile {| path := "done/memo.mp3"; name := "memo.mp3"; extension := "mp3";
                              stat := {| mtime := 0 |} |}) = true.
Proof.
  exact (empty_watch_directory_accepts_all
           {| openAIAPIKey := "sk"; watchDirectory := "";
              processedDirectory := "done"; outputDirectory := "notes" |}
           (AFile {| path := "done/memo.mp3"; name := "memo.mp3"; extension := "mp3";
                     stat := {| mtime := 0 |} |}) eq_refl).
Defined.

(** X11.  Whenever the name of the watch directory occurs in the name of
    the processed directory (the same name, an empty name, or a name such
    as the default one), a file whose path starts with the processed
    directory is a candidate exactly when its extension is [mp3] or [m4a]:
    what was archived is taken up again. *)
Theorem archive_is_watched_when_names_nest (settings : VoiceNotesSettings) (f : TFile)
    (rest : string) :
  includes (processedDirectory settings) (watchDirectory settings) = true ->
  path f = processedDirectory settings ++ rest ->
  shouldProcessFile settings (AFile f) = isAudioFile f.
Proof.
  intros Hin Hp. unfold shouldProcessFile. simpl. rewrite Hp.
  apply includes_true_iff in Hin as (pre & post & ->).
  assert (Hinc : includes ((pre ++ watchDirectory settings ++ post) ++ rest)
                          (watchDirectory settings) = true).
  { apply includes_true_iff. exists pre, (post ++ rest). by rewrite !append_assoc. }
  by rewrite Hinc.
Qed.

Lemma archive_is_watched_when_names_nest_witness :
  shouldProcessFile DEFAULT_SETTINGS
    (AFile {| path := "voice-notes-processed/2024-05-01 at 09.00_52.m4a";
              name := "2024-05-01 at 09.00_52.m4a"; extension := "m4a";
              stat := {| mtime := 1714554000000 |} |}) = true.
Proof.
  exact (archive_is_watched_when_names_nest DEFAULT_SETTINGS
           {| path := "voice-notes-processed/2024-05-01 at 09.00_52.m4a";
              name := "2024-05-01 at 09.00_52.m4a"; extension := "m4a";
              stat := {| mtime := 1714554000000 |} |}
           "/2024-05-01 at 09.00_52.m4a" eq_refl eq_refl).
Defined.

End FilterFacts.

(** ** Startup on the reference vault *)

Section StartupFacts.

(** What [ensureFolder] does on the reference vault, by what lies at the
    path. *)
Lemma ensureFolder_on_vault (dir : string) (v : Vault.world) :
  run Vault.host (ensureFolder dir) v =
  match Vault.files v !! dir with
  | Some Vault.NFolder =>
      ([Asked (GetFolderByPath dir) (Some {| folder_path := dir |})], inr tt, v)
  | Some (Vault.NFile _ _) =>
      ([Asked (GetFolderByPath dir) None;
        Called (VaultCreateFolder dir) (inl (Error "File already exists."))],
       inl (Error "File already exists."), v)
  | None =>
      ([Asked (GetFolderByPath dir) None;
        Called (VaultCreateFolder dir) (inr {| folder_path := dir |})],
       inr tt, Vault.with_files v (<[dir := Vault.NFolder]> (Vault.files v)))
  end.
Proof.
  unfold ensureFolder, mbind, js_bind, ask, await. cbn.
  unfold Vault.folder_at, Vault.create_folder.
  destruct (Vault.files v !! dir) as [[m d|]|] eqn:E; cbn; unfold Vault.create_folder;
    rewrite ?E; reflexivity.
Qed.

(** X12.  On the reference vault, when neither directory path is taken by
    a file, the folder checks of startup return, both directories are
    folders afterwards, and nothing else in the vault has changed; when
    both were folders already, no folder is created and the vault is as it
    was. *)
Theorem startup_creates_missing_folders (settings : VoiceNotesSettings) (v : Vault.world) :
  (forall modified data,
     Vault.files v !! processedDirectory settings <> Some (Vault.NFile modified data)) ->
  (forall modified data,
     Vault.files v !! outputDirectory settings <> Some (Vault.NFile modified data)) ->
  let r := run Vault.host (onLayoutReady_folders settings) v in
  result_of r = inr tt
  /\ Vault.files (world_of r) !! processedDirectory settings = Some Vault.NFolder
  /\ Vault.files (world_of r) !! outputDirectory settings = Some Vault.NFolder
  /\ (forall p, p <> processedDirectory settings -> p <> outputDirectory settings ->
                Vault.files (world_of r) !! p = Vault.files v !! p)
  /\ (Vault.files v !! processedDirectory settings = Some Vault.NFolder ->
      Vault.files v !! outputDirectory settings = Some Vault.NFolder ->
      world_of r = v /\ Forall (fun e => is_write e = false) (trace_of r)).
Proof.
  intros Hp Ho. unfold onLayoutReady_folders, mbind, js_bind, emit. cbn [bind run].
  rewrite run_bind, ensureFolder_on_vault.
  destruct (Vault.files v !! processedDirectory settings) as [[m d|]|] eqn:Ep;
    [by destruct (Hp m d) | |].
  all: rewrite ensureFolder_on_vault; cbn [Vault.files Vault.with_files].
  - destruct (Vault.files v !! outputDirectory settings) as [[m d|]|] eqn:Eo;
      [by destruct (Ho m d) | |].
    all: try assert (processedDirectory settings <> outputDirectory settings)
           by (intros Heq; rewrite Heq in Ep; congruence).
    all: cbn; repeat split; intros; simplify_map_eq; try done; repeat constructor.
  - destruct (decide (processedDirectory settings = outputDirectory settings)) as [Heq|Hne].
    + rewrite <- Heq, lookup_insert_eq.
      cbn; repeat split; intros; simplify_map_eq; try done.
    + rewrite lookup_insert_ne by exact Hne.
      destruct (Vault.files v !! outputDirectory settings) as [[m d|]|] eqn:Eo;
        [by destruct (Ho m d) | |].
      all: cbn; repeat split; intros; simplify_map_eq; try done.
Qed.

Lemma startup_creates_missing_folders_witness :
  let r := run Vault.host (onLayoutReady_folders DEFAULT_SETTINGS) Sample.no_archive in
  result_of r = inr tt
  /\ Vault.files (world_of r) !! "voice-notes-processed" = Some Vault.NFolder
  /\ Vault.files (world_of r) !! "voice-notes-output" = Some Vault.NFolder.
Proof.
  intros r.
  destruct (startup_creates_missing_folders DEFAULT_SETTINGS Sample.no_archive)
    as (H1 & H2 & H3 & _).
  - intros modified data. vm_compute. discriminate.
  - intros modified data. vm_compute. discriminate.
  - repeat split; assumption.
Defined.

(** X13.  Against any host, the folder checks of startup fail only when a
    [createFolder] rejects, with the error of that call, which nothing
    catches; when it is the one for the processed directory, the output
    directory is not even looked up. *)
Theorem startup_fails_only_on_folder_creation {W : Type} (h : host W)
    (settings : VoiceNotesSettings) (w : W) :
  let r := run h (onLayoutReady_folders settings) w in
  match result_of r with
  | inr _ => True
  | inl e =>
      trace_of r = [Emitted (ConsoleLog "ObsidianVoiceNotesPlugin: onload");
                    Asked (GetFolderByPath (processedDirectory settings)) None;
                    Called (VaultCreateFolder (processedDirectory settings)) (inl e)]
      \/ last (trace_of r) = Some (Called (VaultCreateFolder (outputDirectory settings)) (inl e))
         /\ Asked (GetFolderByPath (outputDirectory settings)) None ∈ trace_of r
  end.
Proof.
  unfold onLayoutReady_folders, ensureFolder. js_exec h.
  all: try exact I.
  all: first [ left; reflexivity | right; split; [reflexivity | in_log] ].
Qed.

End StartupFacts.

(** ** The queue at work *)

Section QueueFacts.
Context `{Moment} {W : Type} (h : host W) (settings : VoiceNotesSettings).
Import Plugin History.
Local Open Scope list_scope.

(** X14.  In every state that the plugin can reach, the queue counts the
    jobs in flight, and a job waits only while another one is in flight:
    the queue is never idle with work waiting. *)
Theorem queue_is_never_idle_with_work (w : W) (schedule : list action) :
  let s := exec h settings (init w) schedule in
  PQueue.pending (queue s) = List.length (active s)
  /\ (active s = [] -> PQueue.queue (queue s) = [])
  /\ (forall j, j ∈ active s ++ PQueue.queue (queue s) -> no_throw j.2).
Proof.
  intros s. pose proof (invariant_exec h settings (init w) schedule (invariant_init w)) as Hinv.
  fold s in Hinv. destruct Hinv as [Hb Hp Hs Hbusy Hf Hc Hm Hj Hr Hst Hcur Hord].
  repeat split; auto. intros j Hin. by apply (proj1 (Forall_forall _ _) Hj).
Qed.

Lemma queueFiles_while_busy (q : list job) (j : job) (w : W) (hist : list event)
    (files : list TFile) :
  foldl (queueFile settings)
    {| queue := {| PQueue.concurrency := 1; PQueue.pending := 1; PQueue.queue := q |};
       active := [j]; wld := w; history := hist |} files
  = {| queue := {| PQueue.concurrency := 1; PQueue.pending := 1;
                   PQueue.queue := q ++ map (job_of settings) files |};
       active := [j]; wld := w; history := hist ++ map Enqueued files |}.
Proof.
  revert q hist. induction files as [|f files IH]; intros q hist; simpl.
  - by rewrite !app_nil_r.
  - unfold queueFile at 2. unfold PQueue.add, PQueue.tryToStartAnother. simpl.
    match goal with
    | |- context [match ?l with [] => ?x | _ => _ end] =>
        replace (match l with [] | _ => x end) with x by (by destruct l)
    end.
    simpl. rewrite IH. unfold job_of. by rewrite <- !app_assoc.
Qed.

(** X15.  The startup scan of a plugin that was just loaded hands the
    candidates among the files of the vault to the queue in the order of
    the vault: the first has its run started at once, and the others wait
    behind it in that order. *)
Theorem startup_scan_starts_the_first (w : W) (files : list TFile) :
  let candidates := queueUnprocessedFiles settings files in
  let s := exec h settings (init w) [StartupScan files] in
  active s = map (job_of settings) (take 1 candidates)
  /\ PQueue.queue (queue s) = map (job_of settings) (drop 1 candidates)
  /\ history s = match candidates with
                 | [] => []
                 | c :: rest => Enqueued c :: Started c :: map Enqueued rest
                 end.
Proof.
  intros candidates s. subst s candidates. unfold exec. cbn [foldl step].
  destruct (queueUnprocessedFiles settings files) as [|c rest]; [by repeat split|].
  cbn [foldl].
  replace (queueFile settings (init w) c)
    with {| queue := {| PQueue.concurrency := 1; PQueue.pending := 1; PQueue.queue := [] |};
            active := [job_of settings c]; wld := w;
            history := [Enqueued c; Started c] |} by reflexivity.
  rewrite queueFiles_while_busy. by repeat split.
Qed.

End QueueFacts.
